(** * PDQ similarity index: the dihedral transforms, the entry store and the
      query fan-out of [PDQIndex] and [PDQIndex2].

    Shallow embedding of
    [threatexchange/signal_type/pdq/pdq_index.py] and
    [threatexchange/signal_type/pdq/pdq_index2.py]. *)

From Stdlib Require Import ZArith Ascii String List Lia.
From stdpp Require Import base option list gmap strings.

Local Open Scope string_scope.
Local Open Scope list_scope.
Local Open Scope nat_scope.

(** ** Exceptions and the error monad

    A Python call either returns a value or raises.  The exception classes
    that matter for the index are kept apart. *)

Inductive error : Type :=
| MalformedHash       (* a hash string that is not 64 hex characters *)
| InvalidThreshold    (* a threshold outside 0..256 *)
| IndexError          (* list index out of range *)
| KeyError.           (* dict key missing *)

Inductive result (A : Type) : Type :=
| Ok (a : A)
| Err (e : error).
Arguments Ok {A} a.
Arguments Err {A} e.

Definition rbind {A B : Type} (r : result A) (k : A -> result B) : result B :=
  match r with
  | Ok a => k a
  | Err e => Err e
  end.

#[global] Instance result_bind : MBind result := fun A B k r => rbind r k.
#[global] Instance result_ret : MRet result := @Ok.

(** [for x in xs: out.append(body(x))], stopping at the first exception. *)
Fixpoint for_append {A B : Type} (body : A -> result B) (xs : list A)
  : result (list B) :=
  match xs with
  | [] => Ok []
  | x :: xs' => y ← body x; ys ← for_append body xs'; Ok (y :: ys)
  end.

(** [l[i]] for a non-negative [i]: raises [IndexError] out of range. *)
Definition getitem {A : Type} (l : list A) (i : nat) : result A :=
  match l !! i with
  | Some x => Ok x
  | None => Err IndexError
  end.

(** [range(n)] and [range(n - 1, -1, -1)]. *)
Definition range (n : nat) : list nat := seq 0 n.
Definition range_down (n : nat) : list nat := rev (seq 0 n).

(** ** Hash codec ([pdq_utils]) *)

(** A binary string of ['0'] and ['1'] characters, one [bool] per
    character. *)
Abbreviation bits := (list bool).

(** Modelled from the spec: the constants of [pdq_utils], which is not among
    the sources.  Section 3: a hash is 256 bits, 64 hex characters;
    section 6: [PDQ_CONFIDENT_MATCH_THRESHOLD] is 31. *)
Definition BITS_IN_PDQ : nat := 256.
Definition PDQ_HEX_STR_LEN : nat := 64.
Definition PDQ_CONFIDENT_MATCH_THRESHOLD : Z := 31%Z.

(** Modelled from the spec: the value of one hex character, [0-9a-fA-F]
    (section 4.1). *)
Definition hex_digit_value (c : ascii) : option nat :=
  let n := nat_of_ascii c in
  if (48 <=? n) && (n <=? 57) then Some (n - 48)
  else if (97 <=? n) && (n <=? 102) then Some (n - 87)
  else if (65 <=? n) && (n <=? 70) then Some (n - 55)
  else None.

(** Modelled from the spec: the four bits of a nibble, most significant
    first (section 3). *)
Definition nibble_bits (n : nat) : bits :=
  [Nat.testbit n 3; Nat.testbit n 2; Nat.testbit n 1; Nat.testbit n 0].

Definition bits_nibble (b3 b2 b1 b0 : bool) : nat :=
  8 * Nat.b2n b3 + 4 * Nat.b2n b2 + 2 * Nat.b2n b1 + Nat.b2n b0.

(** Modelled from the spec: the lowercase hex character of a nibble value
    (section 4.1, [bits_to_hex(hex_to_bits(s)) == lowercase(s)]). *)
Definition hex_char (n : nat) : ascii :=
  if n <? 10 then ascii_of_nat (48 + n) else ascii_of_nat (87 + n).

(** Modelled from the spec: the bits of a string of hex characters, four
    per character, [MalformedHash] at a character that is not one. *)
Fixpoint hex_chars_to_bits (s : string) : result bits :=
  match s with
  | EmptyString => Ok []
  | String c s' =>
      match hex_digit_value c with
      | Some n => rest ← hex_chars_to_bits s'; Ok (nibble_bits n ++ rest)
      | None => Err MalformedHash
      end
  end.

(** Modelled from the spec: [pdq_utils.hex_to_binary_str] is not among the
    sources.  Section 4.1: [hex_to_bits] of a 64-character hex string gives
    the 256 bits, and fails with [MalformedHash] if the length is not 64 or
    a character is outside [0-9a-fA-F]; section 3: character [k] encodes
    bits [4k .. 4k+3], most significant bit first. *)
Definition hex_to_binary_str (pdq_hex : string) : result bits :=
  if String.length pdq_hex =? PDQ_HEX_STR_LEN
  then hex_chars_to_bits pdq_hex
  else Err MalformedHash.

(** Modelled from the spec: [pdq_utils.binary_str_to_hex] is not among the
    sources.  Section 4.1: [bits_to_hex] is a total function to lowercase
    hex, four bits per character, most significant bit first. *)
Fixpoint binary_str_to_hex (pdq_binary : bits) : string :=
  match pdq_binary with
  | b3 :: b2 :: b1 :: b0 :: rest =>
      String (hex_char (bits_nibble b3 b2 b1 b0)) (binary_str_to_hex rest)
  | _ => EmptyString
  end.

Definition valid_hash (h : string) : Prop :=
  exists b, hex_to_binary_str h = Ok b.

(** ** Dihedral transformer *)

Abbreviation grid_t := (list (list bool)).

(** [grid[i][j]] *)
Definition cell (grid : grid_t) (i j : nat) : result bool :=
  row ← getitem grid i; getitem row j.

(** The nested [for] loops that build one grid: the outer loop over [outer],
    the inner over [inner], appending [body o n] to the row. *)
Definition build_grid (outer inner : list nat) (body : nat -> nat -> result bool)
  : result grid_t :=
  for_append (fun o => for_append (fun n => body o n) inner) outer.

(** ["".join(row)] over all rows of a grid variant, then back to hex. *)
Definition grid_to_hex (grid_variant : grid_t) : string :=
  binary_str_to_hex (concat grid_variant).

(** [for x in xs: state = body(state, x)], stopping at the first exception. *)
Fixpoint for_each {A S : Type} (body : S -> A -> result S) (xs : list A) (s : S)
  : result S :=
  match xs with
  | [] => Ok s
  | x :: xs' => s' ← body s x; for_each body xs' s'
  end.

(** [l[a:b]] for [0 <= a]; a slice never raises. *)
Definition slice {A : Type} (l : list A) (a b : nat) : list A :=
  take (b - a) (drop a l).

(** ** Distances *)

(** Hamming distance: the number of positions at which two bit strings
    differ (glossary, section 4.3). *)
Fixpoint hamming (a b : bits) : nat :=
  match a, b with
  | x :: a', y :: b' => (if xorb x y then 1 else 0) + hamming a' b'
  | _, _ => 0
  end.

(** Squared Euclidean distance of two 0/1 vectors, as [faiss.IndexFlatL2]
    computes it.  faiss returns it as a float32; every value here is an
    integer in 0..256, which float32 represents exactly. *)
Fixpoint fvec_L2sqr (x y : bits) : Z :=
  match x, y with
  | a :: x', b :: y' =>
      ((Z.b2z a - Z.b2z b) * (Z.b2z a - Z.b2z b) + fvec_L2sqr x' y')%Z
  | _, _ => 0%Z
  end.

(** Modelled from the spec: [pdq_utils.convert_pdq_strings_to_ndarray] is
    not among the sources.  Section 4.6: each hash is validated and put in
    canonical form by the codec, [MalformedHash] at the first offending one;
    each row of the array is the 256 bits of one hash. *)
Definition convert_pdq_strings_to_ndarray (pdq_strings : list string)
  : result (list bits) :=
  for_append hex_to_binary_str pdq_strings.

(** ** [faiss.IndexFlatL2(BITS_IN_PDQ)]

    The flat index keeps the added vectors in order; the position of a
    vector is its id. *)
Module faiss.

Abbreviation IndexFlatL2 := (list bits).

Definition add (index : IndexFlatL2) (vectors : list bits) : IndexFlatL2 :=
  index ++ vectors.

(** The hits of one query: every stored vector at squared distance
    strictly below [radius], in storage order. *)
Definition range_hits (index : IndexFlatL2) (x : bits) (radius : Z)
  : list (nat * Z) :=
  filter (fun p => (p.2 < radius)%Z)
         (imap (fun i v => (i, fvec_L2sqr x v)) index).

(** [limits] for a batch: where the hits of each query start and end. *)
Fixpoint lims_from (start : nat) (per_query : list (list (nat * Z))) : list nat :=
  match per_query with
  | [] => [start]
  | hits :: rest => start :: lims_from (start + length hits) rest
  end.

(** [range_search(x, radius)] returns [(limits, distances, indices)]. *)
Definition range_search (index : IndexFlatL2) (queries : list bits) (radius : Z)
  : list nat * list Z * list nat :=
  let per_query := (fun x => range_hits index x radius) <$> queries in
  (lims_from 0 per_query,
   concat ((fun hits => hits.*2) <$> per_query),
   concat ((fun hits => hits.*1) <$> per_query)).

End faiss.

(** ** [_PDQFaissIndex]: the wrapper around the faiss index *)
Module _PDQFaissIndex.

Record t : Type := { faiss_index : faiss.IndexFlatL2 }.

Definition add (self : t) (pdq_strings : list string) : t * result unit :=
  match convert_pdq_strings_to_ndarray pdq_strings with
  | Err e => (self, Err e)
  | Ok vectors =>
      ({| faiss_index := faiss.add (faiss_index self) vectors |}, Ok tt)
  end.

Definition search (self : t) (queries : list string) (threshold : Z)
  : result (list (nat * Z)) :=
  query_array ← convert_pdq_strings_to_ndarray queries;
  let '(limits, distances, indices) :=
    faiss.range_search (faiss_index self) query_array (threshold + 1) in
  for_each (fun results i =>
      lo ← getitem limits i;
      hi ← getitem limits (i + 1);
      let matches := slice indices lo hi in
      let dists := slice distances lo hi in
      for_each (fun results j =>
          m ← getitem matches j;
          d ← getitem dists j;
          Ok (results ++ [(m, d)]))
        (range (length matches)) results)
    (range (length queries)) [].

End _PDQFaissIndex.

(** ** [PDQHashIndex] of [pdq_faiss_matcher] *)
Module PDQHashIndex.

(** Modelled from the spec: [pdq_faiss_matcher] ([PDQMultiHashIndex],
    [PDQFlatHashIndex]) is not among the sources.  Section 4.4: the
    backend is a set of hashes under ids; the flat scan and the multi-index
    have the same external behaviour. *)
Abbreviation t := (list (nat * bits)).

(** Modelled from the spec: [PDQHashIndex.add(hashes, custom_ids)] is not
    among the sources.  Section 4.4 [add_many]: appends the hashes, here
    under the ids the caller passes; section 7: an error leaves the store
    unchanged. *)
Definition add (self : t) (hashes : list string) (custom_ids : list nat)
  : t * result unit :=
  match convert_pdq_strings_to_ndarray hashes with
  | Err e => (self, Err e)
  | Ok vectors => (self ++ zip custom_ids vectors, Ok tt)
  end.

(** Modelled from the spec: the hits of one query of
    [search_with_distance_in_result].  Section 4.4 [range_search]: every
    stored hash at Hamming distance at most the threshold, as (id, hash,
    distance), with the true Hamming distance. *)
Definition hits_of (self : t) (x : bits) (threshold : Z)
  : list (nat * bits * Z) :=
  filter (fun p => (p.2 <= threshold)%Z)
         ((fun e => (e.1, e.2, Z.of_nat (hamming x e.2))) <$> self).

(** Modelled from the spec: [search_with_distance_in_result] is not among
    the sources.  Section 4.4 [range_search], for a batch of queries: the
    queries go through the codec, and the result is a dict from each query
    string to its hits, filled in the order of the queries. *)
Definition search_with_distance_in_result
    (self : t) (queries : list string) (threshold : Z)
  : result (gmap string (list (nat * bits * Z))) :=
  query_vectors ← convert_pdq_strings_to_ndarray queries;
  Ok (foldl (fun result '(query, match_tuples) =>
               <[query := match_tuples]> result)
            ∅
            (zip queries
               ((fun x => hits_of self x threshold) <$> query_vectors))).

End PDQHashIndex.

(** ** Matches *)

(** [IndexMatchUntyped(SignalSimilarityInfoWithIntDistance(distance), metadata)] *)
Record IndexMatch (M : Type) : Type := PDQIndexMatch
  { distance : Z; metadata : M }.
Arguments PDQIndexMatch {M} distance metadata.
Arguments distance {M} _.
Arguments metadata {M} _.

(** ** Calls that change an index *)
Inductive call (M : Type) : Type :=
| Add (signal_str : string) (entry : M)
| AddAll (entries : list (string * M)).
Arguments Add {M} signal_str entry.
Arguments AddAll {M} entries.

(** ** [PDQIndex2] *)
Module PDQIndex2.

Record t (M : Type) : Type := Build
  { threshold : Z;
    _index : _PDQFaissIndex.t;
    (* Matches hash to Faiss index *)
    _deduper : gmap string nat;
    (* Entry mapping: Each list[entries]'s index is its hash's index *)
    _idx_to_entries : list (list M) }.
Arguments Build {M}.
Arguments threshold {M} _.
Arguments _index {M} _.
Arguments _deduper {M} _.
Arguments _idx_to_entries {M} _.

Definition _get_transformed_hashes (hash : string) : result (list string) :=
  binary ← hex_to_binary_str hash;
  grid ← build_grid (range 16) (range 16)
            (fun i j => getitem binary (i * 16 + j));
  rotated_90 ← build_grid (range 16) (range_down 16)
            (fun j i => cell grid i j);
  rotated_180 ← build_grid (range_down 16) (range_down 16)
            (fun i j => cell grid i j);
  rotated_270 ← build_grid (range_down 16) (range 16)
            (fun j i => cell grid i j);
  flipped_h ← build_grid (range 16) (range_down 16)
            (fun i j => cell grid i j);
  flipped_v ← build_grid (range_down 16) (range 16)
            (fun i j => cell grid i j);
  flipped_h_90 ← build_grid (range 16) (range 16)
            (fun j i => cell flipped_h i j);
  flipped_h_270 ← build_grid (range_down 16) (range_down 16)
            (fun j i => cell flipped_h i j);
  Ok (hash :: map grid_to_hex
        [rotated_90; rotated_180; rotated_270; flipped_h; flipped_v;
         flipped_h_90; flipped_h_270]).

Section Methods.
Context {M : Type}.

Definition __len__ (self : t M) : nat := length (_idx_to_entries self).

(** [self._idx_to_entries[existing_faiss_id].append(i)] *)
Definition append_at (l : list (list M)) (k : nat) (i : M)
  : result (list (list M)) :=
  es ← getitem l k; Ok (<[k := es ++ [i]]> l).

(** The state is updated in place, so what was done before an exception
    stays done: the state after the call is returned in both cases. *)
Fixpoint add_all (self : t M) (entries : list (string * M))
  : t M * result unit :=
  match entries with
  | [] => (self, Ok tt)
  | (h, i) :: rest =>
      match _deduper self !! h with
      | None =>
          match _PDQFaissIndex.add (_index self) [h] with
          | (_, Err e) => (self, Err e)
          | (index', Ok _) =>
              let next_id := size (_deduper self) in
              add_all
                (Build (threshold self) index'
                   (<[h := next_id]> (_deduper self))
                   (_idx_to_entries self ++ [[i]]))
                rest
          end
      | Some existing_faiss_id =>
          match append_at (_idx_to_entries self) existing_faiss_id i with
          | Err e => (self, Err e)
          | Ok entries' =>
              add_all
                (Build (threshold self) (_index self) (_deduper self)
                   entries')
                rest
          end
      end
  end.

Definition add (self : t M) (signal_str : string) (entry : M)
  : t M * result unit :=
  add_all self [(signal_str, entry)].

(** [PDQIndex2(entries=entries, threshold=threshold)], with the default
    [index=None]: a fresh [IndexFlatL2].  When [add_all] raises, so does
    the constructor and there is no index. *)
Definition __init__ (entries : list (string * M)) (threshold : Z)
  : result (t M) :=
  let self := Build threshold {| _PDQFaissIndex.faiss_index := [] |} ∅ [] in
  let '(self', r) := add_all self entries in
  _ ← r; Ok self'.

(** The index right after [PDQIndex2(threshold=threshold)]. *)
Definition empty (threshold : Z) : t M :=
  Build threshold {| _PDQFaissIndex.faiss_index := [] |} ∅ [].

(** One call, by a client that catches the exception if there is one,
    and a sequence of calls. *)
Definition step (self : t M) (c : call M) : t M :=
  match c with
  | Add signal_str entry => (add self signal_str entry).1
  | AddAll entries => (add_all self entries).1
  end.

Definition run (self : t M) (cs : list (call M)) : t M :=
  foldl step self cs.

(** The state invariant of section 3. *)
Definition invariant (self : t M) : Prop :=
  size (_deduper self) = length (_idx_to_entries self)
  /\ length (_idx_to_entries self)
     = length (_PDQFaissIndex.faiss_index (_index self))
  /\ (forall h i, _deduper self !! h = Some i ->
        exists b, hex_to_binary_str h = Ok b
          /\ _PDQFaissIndex.faiss_index (_index self) !! i = Some b)
  /\ Forall (fun es => es <> []) (_idx_to_entries self).

(** Every id of the backend is a position of the entry list. *)
Definition ids_in_range (self : t M) : Prop :=
  length (_PDQFaissIndex.faiss_index (_index self))
  <= length (_idx_to_entries self).

Definition query (self : t M) (hash : string)
  : result (list (IndexMatch M)) :=
  transformed_hashes ← _get_transformed_hashes hash;
  st ← for_each (fun (st : list (IndexMatch M) * gset nat) (transformed_hash : string) =>
          matches_list ← _PDQFaissIndex.search (_index self)
                            [transformed_hash] (threshold self);
          for_each (fun '(all_matches, seen_ids) '(match_, distance) =>
              if decide (match_ ∈ seen_ids) then Ok (all_matches, seen_ids)
              else
                let seen_ids := {[match_]} ∪ seen_ids in
                entries ← getitem (_idx_to_entries self) match_;
                Ok (all_matches ++ (PDQIndexMatch distance <$> entries),
                    seen_ids))
            matches_list st)
        transformed_hashes ([], ∅);
  Ok st.1.

End Methods.

End PDQIndex2.

(** ** [PDQIndex] and [PDQFlatIndex] *)
Module PDQIndex.

(** The class of the object: [PDQFlatIndex] overrides the two class
    methods of [PDQIndex]. *)
Inductive cls : Type := PDQIndex | PDQFlatIndex.

Definition get_match_threshold (c : cls) : Z :=
  match c with
  | PDQIndex => 31%Z  (* PDQ_CONFIDENT_MATCH_THRESHOLD *)
  | PDQFlatIndex => 52%Z  (* larger PDQ_MATCH_THRESHOLD for flatindexes *)
  end.

(** [PDQMultiHashIndex()] or [PDQFlatHashIndex()]: both start empty. *)
Definition _get_empty_index (c : cls) : PDQHashIndex.t := [].

Record t (M : Type) : Type := Build
  { class : cls;
    local_id_to_entry : list (string * M);
    index : PDQHashIndex.t }.
Arguments Build {M}.
Arguments class {M} _.
Arguments local_id_to_entry {M} _.
Arguments index {M} _.

Definition _get_transformed_hashes (hash : string) : result (list string) :=
  binary ← hex_to_binary_str hash;
  grid ← build_grid (range 16) (range 16)
            (fun i j => getitem binary (i * 16 + j));
  rotated_90 ← build_grid (range 16) (range_down 16)
            (fun j i => cell grid i j);
  rotated_180 ← build_grid (range_down 16) (range_down 16)
            (fun i j => cell grid i j);
  rotated_270 ← build_grid (range_down 16) (range 16)
            (fun j i => cell grid i j);
  flipped_h ← build_grid (range 16) (range_down 16)
            (fun i j => cell grid i j);
  flipped_v ← build_grid (range_down 16) (range 16)
            (fun i j => cell grid i j);
  flipped_h_90 ← build_grid (range 16) (range 16)
            (fun j i => cell flipped_h i j);
  flipped_h_270 ← build_grid (range_down 16) (range_down 16)
            (fun j i => cell flipped_h i j);
  Ok (hash :: map grid_to_hex
        [rotated_90; rotated_180; rotated_270; flipped_h; flipped_v;
         flipped_h_90; flipped_h_270]).

Section Methods.
Context {M : Type}.

Definition __len__ (self : t M) : nat := length (local_id_to_entry self).

Definition add_all (self : t M) (entries : list (string * M))
  : t M * result unit :=
  let start := length (local_id_to_entry self) in
  let self := Build (class self) (local_id_to_entry self ++ entries)
                    (index self) in
  if decide (start ≠ length (local_id_to_entry self)) then
    match PDQHashIndex.add (index self)
            ((drop start (local_id_to_entry self)).*1)
            (seq start (length (local_id_to_entry self) - start)) with
    | (_, Err e) => (self, Err e)
    | (index', Ok _) =>
        (Build (class self) (local_id_to_entry self) index', Ok tt)
    end
  else (self, Ok tt).

Definition add (self : t M) (signal_str : string) (entry : M)
  : t M * result unit :=
  add_all self [(signal_str, entry)].

Definition __init__ (c : cls) (entries : list (string * M)) : result (t M) :=
  let self := Build c [] (_get_empty_index c) in
  let '(self', r) := add_all self entries in
  _ ← r; Ok self'.

(** The index right after the constructor without entries. *)
Definition empty (c : cls) : t M := Build c [] (_get_empty_index c).

Definition step (self : t M) (c : call M) : t M :=
  match c with
  | Add signal_str entry => (add self signal_str entry).1
  | AddAll entries => (add_all self entries).1
  end.

Definition run (self : t M) (cs : list (call M)) : t M :=
  foldl step self cs.

(** Every id of the backend is a position of the entry list. *)
Definition ids_in_range (self : t M) : Prop :=
  forall id v, (id, v) ∈ index self -> id < length (local_id_to_entry self).

(** [results[transformed_hash]] *)
Definition dict_get {V : Type} (d : gmap string V) (k : string) : result V :=
  match d !! k with
  | Some v => Ok v
  | None => Err KeyError
  end.

Definition query (self : t M) (hash : string)
  : result (list (IndexMatch M)) :=
  transformed_hashes ← _get_transformed_hashes hash;
  (* Query the index with all transformed hashes at once *)
  results ← PDQHashIndex.search_with_distance_in_result (index self)
              transformed_hashes (get_match_threshold (class self));
  (* Process results for all transformations *)
  st ← for_each (fun (st : list (IndexMatch M) * gset nat) (transformed_hash : string) =>
          hits ← dict_get results transformed_hash;
          for_each (fun '(all_matches, seen_ids) '(id, _, distance) =>
              if decide (id ∈ seen_ids) then Ok (all_matches, seen_ids)
              else
                let seen_ids := {[id]} ∪ seen_ids in
                entry ← getitem (local_id_to_entry self) id;
                (* int(distance): the distance is an integer already *)
                Ok (all_matches ++ [PDQIndexMatch distance entry.2],
                    seen_ids))
            hits st)
        transformed_hashes ([], ∅);
  Ok st.1.

End Methods.

End PDQIndex.

(** ** The grid semantics of section 4.2, on the row-major bit layout *)

(** [out[a][b] = in[src a b]] for all 16 x 16 cells, row-major. *)
Definition remap (src : nat -> nat -> nat * nat) (b : bits) : bits :=
  flat_map (fun a => map (fun c => nth ((src a c).1 * 16 + (src a c).2) b false)
                         (seq 0 16)) (seq 0 16).

(** R90: [out[j][15-i] = in[i][j]] *)
Definition spec_R90 : bits -> bits := remap (fun a b => (15 - b, a)).
(** R180: [out[15-i][15-j] = in[i][j]] *)
Definition spec_R180 : bits -> bits := remap (fun a b => (15 - a, 15 - b)).
(** R270: [out[15-j][i] = in[i][j]] *)
Definition spec_R270 : bits -> bits := remap (fun a b => (b, 15 - a)).
(** Flip-H: [out[i][15-j] = in[i][j]] *)
Definition spec_FlipH : bits -> bits := remap (fun a b => (a, 15 - b)).
(** Flip-V: [out[15-i][j] = in[i][j]] *)
Definition spec_FlipV : bits -> bits := remap (fun a b => (15 - a, b)).
(** flip-h then rotate 90 degrees clockwise *)
Definition spec_FlipH_R90 (b : bits) : bits := spec_R90 (spec_FlipH b).
(** flip-h then rotate 270 degrees clockwise *)
Definition spec_FlipH_R270 (b : bits) : bits := spec_R270 (spec_FlipH b).

(** The eight elements of D4 acting on a grid, in the order of section 4.2. *)
Definition D4_images (b : bits) : list bits :=
  [b; spec_R90 b; spec_R180 b; spec_R270 b; spec_FlipH b; spec_FlipV b;
   spec_FlipH_R90 b; spec_FlipH_R270 b].

(** ** Hits, first hits and the matches they expand to *)

(** The hits of a query in the order they are processed, reduced to the
    first hit of every id that is not in [seen] yet. *)
Fixpoint first_hits (seen : gset nat) (hits : list (nat * Z)) : list (nat * Z) :=
  match hits with
  | [] => []
  | (id, d) :: rest =>
      if decide (id ∈ seen) then first_hits seen rest
      else (id, d) :: first_hits ({[id]} ∪ seen) rest
  end.

(** [(id, d)] is a hit of orientation [k], and no earlier orientation hit
    [id]; [per] lists the hits of each orientation in order. *)
Definition first_orientation_hit (per : list (list (nat * Z))) (id : nat) (d : Z)
  : Prop :=
  exists k r, per !! k = Some r /\ (id, d) ∈ r
    /\ forall k' r', k' < k -> per !! k' = Some r' -> id ∉ r'.*1.

(** One match per metadata entry stored at the id ([PDQIndex2]). *)
Definition matches_of_entries {M : Type} (entries : list (list M))
    (hit : nat * Z) : list (IndexMatch M) :=
  PDQIndexMatch hit.2 <$> default [] (entries !! hit.1).

(** The match of the one entry at the id ([PDQIndex]). *)
Definition match_of_entry {M : Type} (entries : list (string * M))
    (hit : nat * Z) : list (IndexMatch M) :=
  match entries !! hit.1 with
  | Some entry => [PDQIndexMatch hit.2 entry.2]
  | None => []
  end.

(** What a hit with a new id adds to [all_matches], as one step that may
    raise: in [PDQIndex2.query] and in [PDQIndex.query]. *)
Definition emit_entries {M : Type} (entries : list (list M)) (hit : nat * Z)
  : result (list (IndexMatch M)) :=
  es ← getitem entries hit.1; Ok (PDQIndexMatch hit.2 <$> (es : list M)).

Definition emit_entry {M : Type} (entries : list (string * M)) (hit : nat * Z)
  : result (list (IndexMatch M)) :=
  entry ← getitem entries hit.1; Ok [PDQIndexMatch hit.2 entry.2].

(** The id and the distance of a hit [(id, hash, distance)] of
    [search_with_distance_in_result]. *)
Definition hit_key (hit : nat * bits * Z) : nat * Z := (hit.1.1, hit.2).

(** The bits of a hash string, for the strings that are hashes. *)
Definition hash_bits (h : string) : bits :=
  match hex_to_binary_str h with
  | Ok b => b
  | Err _ => []
  end.

(** ** What the claims say about [query] *)

Section Query_specs.
Context {M : Type}.

(** Every id that the backend returns while [PDQIndex2.query] runs on [hash]
    is a position of [_idx_to_entries], and [query] returns. *)
Definition PDQIndex2_lookups_in_range (self : PDQIndex2.t M) (hash : string)
  : Prop :=
  exists ts,
    PDQIndex2._get_transformed_hashes hash = Ok ts
    /\ (forall t, t ∈ ts ->
          exists r, _PDQFaissIndex.search (PDQIndex2._index self) [t]
                      (PDQIndex2.threshold self) = Ok r
            /\ forall id d, (id, d) ∈ r ->
                 id < length (PDQIndex2._idx_to_entries self))
    /\ exists ms, PDQIndex2.query self hash = Ok ms.

(** The same for [PDQIndex.query] and [local_id_to_entry]. *)
Definition PDQIndex_lookups_in_range (self : PDQIndex.t M) (hash : string)
  : Prop :=
  exists ts results,
    PDQIndex._get_transformed_hashes hash = Ok ts
    /\ PDQHashIndex.search_with_distance_in_result (PDQIndex.index self) ts
         (PDQIndex.get_match_threshold (PDQIndex.class self)) = Ok results
    /\ (forall t, t ∈ ts ->
          exists r, results !! t = Some r
            /\ forall id v d, (id, v, d) ∈ r ->
                 id < length (PDQIndex.local_id_to_entry self))
    /\ exists ms, PDQIndex.query self hash = Ok ms.

(** The match [m] of [PDQIndex2.query self hash] is within the threshold,
    and its distance is the Hamming distance between one of the transformed
    hashes and the stored hash whose entry it carries. *)
Definition true_distance_match (self : PDQIndex2.t M) (hash : string)
    (m : IndexMatch M) : Prop :=
  (distance m <= PDQIndex2.threshold self)%Z
  /\ exists ts t b id v es,
       PDQIndex2._get_transformed_hashes hash = Ok ts
       /\ t ∈ ts /\ hex_to_binary_str t = Ok b
       /\ _PDQFaissIndex.faiss_index (PDQIndex2._index self) !! id = Some v
       /\ PDQIndex2._idx_to_entries self !! id = Some es
       /\ metadata m ∈ es
       /\ distance m = Z.of_nat (hamming b v).

(** The matches [ms] are those of one hit per id: the first hit of every id
    that some orientation hit, [per] being the hits of the orientations in
    order and [expand] the matches of a hit. *)
Definition first_hit_matches (per : list (list (nat * Z)))
    (expand : nat * Z -> list (IndexMatch M)) (ms : list (IndexMatch M)) : Prop :=
  exists hits,
    ms = flat_map expand hits
    /\ NoDup hits.*1
    /\ (forall id d, (id, d) ∈ hits -> first_orientation_hit per id d)
    /\ (forall r id d, r ∈ per -> (id, d) ∈ r -> id ∈ hits.*1).

(** [PDQIndex2.query] returns the matches of one hit per id, one match per
    metadata entry of the id, with the distance of the first orientation
    that hit the id. *)
Definition PDQIndex2_query_dedups (self : PDQIndex2.t M) (hash : string) : Prop :=
  (forall ms, PDQIndex2.query self hash = Ok ms ->
     exists ts per,
       PDQIndex2._get_transformed_hashes hash = Ok ts
       /\ Forall2 (fun t r =>
            _PDQFaissIndex.search (PDQIndex2._index self) [t]
              (PDQIndex2.threshold self) = Ok r) ts per
       /\ first_hit_matches per
            (matches_of_entries (PDQIndex2._idx_to_entries self)) ms)
  /\ (PDQIndex2.ids_in_range self -> exists ms, PDQIndex2.query self hash = Ok ms).

(** The same for [PDQIndex.query], where an id has one entry. *)
Definition PDQIndex_query_dedups (self : PDQIndex.t M) (hash : string) : Prop :=
  (forall ms, PDQIndex.query self hash = Ok ms ->
     exists ts results per,
       PDQIndex._get_transformed_hashes hash = Ok ts
       /\ PDQHashIndex.search_with_distance_in_result (PDQIndex.index self) ts
            (PDQIndex.get_match_threshold (PDQIndex.class self)) = Ok results
       /\ Forall2 (fun t r => results !! t = Some r) ts per
       /\ first_hit_matches ((fun r : list (nat * bits * Z) => hit_key <$> r) <$> per)
            (match_of_entry (PDQIndex.local_id_to_entry self)) ms)
  /\ (PDQIndex.ids_in_range self -> exists ms, PDQIndex.query self hash = Ok ms).

(** [PDQIndex2] turns the hash [h] down: [add] and [query] raise
    [MalformedHash] and leave the state as it was, and a batch with [h] at
    some position raises [MalformedHash] with the state that the pairs
    before [h] gave. *)
Definition PDQIndex2_rejects (self : PDQIndex2.t M) (h : string) : Prop :=
  (forall m, PDQIndex2.add self h m = (self, Err MalformedHash))
  /\ PDQIndex2.query self h = Err MalformedHash
  /\ (forall pre m post self',
        PDQIndex2.add_all self pre = (self', Ok tt) ->
        PDQIndex2.add_all self (pre ++ (h, m) :: post)
        = (self', Err MalformedHash)).

End Query_specs.

(** ** Sample hashes *)

(** The grid with the single cell (0, 1) set, and its 90 degree rotation,
    the single cell (1, 15). *)
Definition h0 : string :=
  "4000000000000000000000000000000000000000000000000000000000000000".
Definition h0_r90 : string :=
  "0000000100000000000000000000000000000000000000000000000000000000".

Definition h0_r180 : string :=
  "0000000000000000000000000000000000000000000000000000000000000002".
Definition h0_r270 : string :=
  "0000000000000000000000000000000000000000000000000000000080000000".
Definition h0_flipped_h : string :=
  "0002000000000000000000000000000000000000000000000000000000000000".
Definition h0_flipped_v : string :=
  "0000000000000000000000000000000000000000000000000000000000004000".
Definition bits_h0 : bits := false :: true :: repeat false 254.

(** What [_get_transformed_hashes] returns on [h0]. *)
Definition h0_transformed : list string :=
  [h0; h0_r90; h0_r180; h0_r270; h0_flipped_h; h0_flipped_v; h0_r270; h0_r90].

(** The two diagonal reflections, in the composed grid semantics. *)
Definition spec_transpose : bits -> bits := remap (fun a b => (b, a)).
Definition spec_antitranspose : bits -> bits :=
  remap (fun a b => (15 - b, 15 - a)).

(** ** The helpers of [tests/test_pdq_transformations.py] *)
Module test_pdq_transformations.


Definition manually_rotate_90 (hash_str : string) : result string :=
  binary ← hex_to_binary_str hash_str;
  grid ← build_grid (range 16) (range 16)
            (fun i j => getitem binary (i * 16 + j));
  rotated ← build_grid (range 16) (range_down 16)
            (fun j i => cell grid i j);
  Ok (grid_to_hex rotated).

Definition manually_rotate_180 (hash_str : string) : result string :=
  binary ← hex_to_binary_str hash_str;
  grid ← build_grid (range 16) (range 16)
            (fun i j => getitem binary (i * 16 + j));
  rotated ← build_grid (range_down 16) (range_down 16)
            (fun i j => cell grid i j);
  Ok (grid_to_hex rotated).

Definition manually_flip_horizontal (hash_str : string) : result string :=
  binary ← hex_to_binary_str hash_str;
  grid ← build_grid (range 16) (range 16)
            (fun i j => getitem binary (i * 16 + j));
  flipped ← build_grid (range 16) (range_down 16)
            (fun i j => cell grid i j);
  Ok (grid_to_hex flipped).

End test_pdq_transformations.

(** ** Bit positions of a grid transform *)

(** The row-major position that each cell of [remap src] reads. *)
Definition remap_cells (src : nat -> nat -> nat * nat) : list nat :=
  flat_map (fun a => map (fun c => (src a c).1 * 16 + (src a c).2) (seq 0 16))
           (seq 0 16).

(** The grid images that [_get_transformed_hashes] computes, in its order. *)
Definition computed_images (b : bits) : list bits :=
  [b; spec_R90 b; spec_R180 b; spec_R270 b; spec_FlipH b; spec_FlipV b;
   spec_R270 b; spec_R90 b].

(** For each of the outputs 1 to 5, the output that undoes it. *)
Definition undo_index : list (nat * nat) :=
  [(1, 3); (2, 2); (3, 1); (4, 4); (5, 5)].

(** ** What an index holds *)

Section Index_specs.
Context {M : Type}.

(** [self'] keeps everything that [self] holds: the threshold, the id of
    every hash, the vector at every position of the backend, and every entry
    list, which may have grown at its end. *)
Definition PDQIndex2_extends (self self' : PDQIndex2.t M) : Prop :=
  PDQIndex2.threshold self' = PDQIndex2.threshold self
  /\ PDQIndex2.__len__ self <= PDQIndex2.__len__ self'
  /\ (forall h i, PDQIndex2._deduper self !! h = Some i ->
        PDQIndex2._deduper self' !! h = Some i)
  /\ (forall i v,
        _PDQFaissIndex.faiss_index (PDQIndex2._index self) !! i = Some v ->
        _PDQFaissIndex.faiss_index (PDQIndex2._index self') !! i = Some v)
  /\ (forall i es, PDQIndex2._idx_to_entries self !! i = Some es ->
        exists more, PDQIndex2._idx_to_entries self' !! i = Some (es ++ more)).

(** The payload [m] is stored under the hash [h]. *)
Definition PDQIndex2_holds (self : PDQIndex2.t M) (h : string) (m : M) : Prop :=
  exists i es,
    PDQIndex2._deduper self !! h = Some i
    /\ PDQIndex2._idx_to_entries self !! i = Some es
    /\ m ∈ es.

(** What [add(h, m)] with a valid hash does to a [PDQIndex2]: a new hash
    gets the next id and the entry list [[m]]; a known hash keeps its id and
    gets [m] at the end of its entry list. *)
Definition PDQIndex2_added (self self' : PDQIndex2.t M) (h : string) (m : M)
  : Prop :=
  match PDQIndex2._deduper self !! h with
  | None =>
      PDQIndex2.__len__ self' = S (PDQIndex2.__len__ self)
      /\ PDQIndex2._deduper self' !! h = Some (PDQIndex2.__len__ self)
      /\ PDQIndex2._idx_to_entries self' !! PDQIndex2.__len__ self = Some [m]
  | Some i =>
      PDQIndex2.__len__ self' = PDQIndex2.__len__ self
      /\ PDQIndex2._deduper self' = PDQIndex2._deduper self
      /\ PDQIndex2._index self' = PDQIndex2._index self
      /\ exists es, PDQIndex2._idx_to_entries self !! i = Some es
           /\ PDQIndex2._idx_to_entries self' !! i = Some (es ++ [m])
  end.

(** The payloads that [entries] pairs with the hash string [h], in the
    order of [entries]. *)
Definition payloads_of (h : string) (entries : list (string * M)) : list M :=
  (filter (fun e => e.1 = h) entries).*2.

(** The [PDQIndex2] holds the pairs of [entries] grouped by hash string:
    the dedup table has the hash strings of [entries] as its keys, no two
    of them under one id, and the entry list of a hash string is
    [payloads_of] it. *)
Definition PDQIndex2_grouped (self : PDQIndex2.t M)
    (entries : list (string * M)) : Prop :=
  (forall h, h ∈ entries.*1 <-> is_Some (PDQIndex2._deduper self !! h))
  /\ (forall h h' i, PDQIndex2._deduper self !! h = Some i ->
        PDQIndex2._deduper self !! h' = Some i -> h = h')
  /\ (forall h i, PDQIndex2._deduper self !! h = Some i ->
        PDQIndex2._idx_to_entries self !! i = Some (payloads_of h entries)).

(** The backend of a [PDQIndex] agrees with its entry list: no id twice,
    and the vector under an id is that of the hash at that position. *)
Definition PDQIndex_invariant (self : PDQIndex.t M) : Prop :=
  NoDup (PDQIndex.index self).*1
  /\ forall id v, (id, v) ∈ PDQIndex.index self ->
       exists h m, PDQIndex.local_id_to_entry self !! id = Some (h, m)
         /\ hex_to_binary_str h = Ok v.

(** The payload [m] is stored under the hash [h], and the backend has it. *)
Definition PDQIndex_holds (self : PDQIndex.t M) (h : string) (m : M) : Prop :=
  exists id v,
    (id, v) ∈ PDQIndex.index self
    /\ PDQIndex.local_id_to_entry self !! id = Some (h, m).

End Index_specs.

(** What [_get_transformed_hashes] returns on [h0_r90]. *)
Definition h0_r90_transformed : list string :=
  [h0_r90; h0_r180; h0_r270; h0;
   "0000800000000000000000000000000000000000000000000000000000000000";
   "0000000000000000000000000000000000000000000000000000000000010000";
   h0; h0_r180].

(** ** What [PDQIndex.query] returns *)

Section PDQIndex_query_specs.
Context {M : Type}.

(** The match [m] of [PDQIndex.query self hash] carries the payload of an
    entry whose hash is within the match threshold of one of the transformed
    hashes, and the distance between the two. *)
Definition PDQIndex_true_match (self : PDQIndex.t M) (hash : string)
    (m : IndexMatch M) : Prop :=
  (0 <= distance m
   <= PDQIndex.get_match_threshold (PDQIndex.class self))%Z
  /\ exists ts t bt id h bh,
       PDQIndex._get_transformed_hashes hash = Ok ts
       /\ t ∈ ts /\ hex_to_binary_str t = Ok bt
       /\ PDQIndex.local_id_to_entry self !! id = Some (h, metadata m)
       /\ hex_to_binary_str h = Ok bh
       /\ distance m = Z.of_nat (hamming bt bh).

End PDQIndex_query_specs.

(** * Properties *)

(** ** The error monad *)

Lemma bind_Ok {A B : Type} (a : A) (k : A -> result B) :
  (Ok a ≫= k) = k a.
Proof. reflexivity. Qed.

Lemma bind_Err {A B : Type} (e : error) (k : A -> result B) :
  (Err e ≫= k) = Err e.
Proof. reflexivity. Qed.

Lemma bind_Ok_inv {A B : Type} (r : result A) (k : A -> result B) (b : B) :
  (r ≫= k) = Ok b -> exists a, r = Ok a /\ k a = Ok b.
Proof. destruct r as [a|e]; [eauto | discriminate]. Qed.

Lemma getitem_Ok {A : Type} (l : list A) (i : nat) (x : A) :
  l !! i = Some x -> getitem l i = Ok x.
Proof. unfold getitem. intros ->. reflexivity. Qed.

Lemma getitem_lt {A : Type} (l : list A) (i : nat) :
  i < length l -> exists x, l !! i = Some x /\ getitem l i = Ok x.
Proof.
  intros Hi. destruct (lookup_lt_is_Some_2 l i Hi) as [x Hx].
  exists x. split; [exact Hx | exact (getitem_Ok _ _ _ Hx)].
Qed.

Lemma getitem_Err {A : Type} (l : list A) (i : nat) (e : error) :
  getitem l i = Err e -> e = IndexError /\ length l <= i.
Proof.
  unfold getitem. destruct (l !! i) eqn:E; [discriminate|].
  intros [= <-]. split; [reflexivity | by apply lookup_ge_None].
Qed.

(** ** The codec *)

Lemma hex_digit_value_lt (c : ascii) (n : nat) :
  hex_digit_value c = Some n -> n < 16.
Proof.
  unfold hex_digit_value.
  repeat case_match; intros [= <-]; 
    repeat match goal with
      | H : _ && _ = true |- _ => apply andb_true_iff in H; destruct H
      | H : (_ <=? _) = true |- _ => apply Nat.leb_le in H
      end; lia.
Qed.

Lemma hex_chars_to_bits_length (s : string) (b : bits) :
  hex_chars_to_bits s = Ok b -> length b = 4 * String.length s.
Proof.
  revert b. induction s as [|c s IH]; intros b; simpl.
  - intros [= <-]. reflexivity.
  - destruct (hex_digit_value c) as [n|]; [|discriminate].
    intros H. apply bind_Ok_inv in H as (rest & Hrest & [= <-]).
    simpl. rewrite (IH _ Hrest). lia.
Qed.

Lemma hex_to_binary_str_length (h : string) (b : bits) :
  hex_to_binary_str h = Ok b -> length b = BITS_IN_PDQ.
Proof.
  unfold hex_to_binary_str.
  destruct (String.length h =? PDQ_HEX_STR_LEN) eqn:E; [|discriminate].
  apply Nat.eqb_eq in E. intros H%hex_chars_to_bits_length.
  rewrite H, E. reflexivity.
Qed.

Lemma hex_to_binary_str_Err (h : string) (e : error) :
  hex_to_binary_str h = Err e -> e = MalformedHash.
Proof.
  unfold hex_to_binary_str. case_match; [|congruence].
  clear. revert e. induction h as [|c s IH]; simpl; intros e; [discriminate|].
  destruct (hex_digit_value c); [|congruence].
  destruct (hex_chars_to_bits s); [discriminate|].
  intros [= <-]. by apply IH.
Qed.

Lemma nibble_roundtrip (b3 b2 b1 b0 : bool) :
  hex_digit_value (hex_char (bits_nibble b3 b2 b1 b0))
    = Some (bits_nibble b3 b2 b1 b0)
  /\ nibble_bits (bits_nibble b3 b2 b1 b0) = [b3; b2; b1; b0].
Proof. destruct b3, b2, b1, b0; split; reflexivity. Qed.

Lemma binary_str_to_hex_roundtrip (n : nat) (b : bits) :
  length b = 4 * n ->
  String.length (binary_str_to_hex b) = n
  /\ hex_chars_to_bits (binary_str_to_hex b) = Ok b.
Proof.
  revert b. induction n as [|n IH]; intros b Hlen.
  - destruct b; [split; reflexivity | discriminate].
  - destruct b as [|b3 [|b2 [|b1 [|b0 rest]]]]; simpl in Hlen; try lia.
    destruct (IH rest ltac:(lia)) as [IHlen IHbits].
    destruct (nibble_roundtrip b3 b2 b1 b0) as [Hd Hn].
    cbn [binary_str_to_hex String.length hex_chars_to_bits].
    rewrite Hd, IHbits, IHlen, bind_Ok, Hn. split; reflexivity.
Qed.

(** Every 256-bit array prints as a valid hash that reads back as itself. *)
Lemma hex_to_binary_str_of_hex (b : bits) :
  length b = BITS_IN_PDQ -> hex_to_binary_str (binary_str_to_hex b) = Ok b.
Proof.
  intros Hlen. destruct (binary_str_to_hex_roundtrip 64 b Hlen) as [H1 H2].
  unfold hex_to_binary_str. rewrite H1. exact H2.
Qed.

(** ** The grid transforms *)

Lemma remap_length (src : nat -> nat -> nat * nat) (b : bits) :
  length (remap src b) = BITS_IN_PDQ.
Proof. reflexivity. Qed.

Lemma bits_tabulate (b : bits) :
  length b = BITS_IN_PDQ -> b = map (fun i => nth i b false) (seq 0 BITS_IN_PDQ).
Proof.
  intros Hlen. apply (nth_ext _ _ false false).
  - by rewrite length_map, length_seq.
  - intros n Hn. rewrite Hlen in Hn.
    set (f := fun i => nth i b false).
    rewrite (nth_indep (map f (seq 0 BITS_IN_PDQ)) false (f 0))
      by (by rewrite length_map, length_seq).
    rewrite (map_nth f), seq_nth by exact Hn.
    reflexivity.
Qed.

(** What the eight grids of [_get_transformed_hashes] are, in the grid
    semantics of section 4.2: the last two are the 270 and the 90 degree
    rotation again. *)
Lemma transformed_shape (hash : string) (binary : bits) :
  hex_to_binary_str hash = Ok binary ->
  PDQIndex2._get_transformed_hashes hash =
    Ok (hash :: map binary_str_to_hex
          [spec_R90 binary; spec_R180 binary; spec_R270 binary;
           spec_FlipH binary; spec_FlipV binary;
           spec_R270 binary; spec_R90 binary]).
Proof.
  intros H. unfold PDQIndex2._get_transformed_hashes.
  rewrite H, bind_Ok.
  assert (Hb := bits_tabulate binary (hex_to_binary_str_length _ _ H)).
  clear H. set (f := fun i => nth i binary false) in Hb. clearbody f.
  subst binary. cbv -[binary_str_to_hex]. reflexivity.
Qed.

(** The composed transforms of section 4.2 are the two diagonal
    reflections. *)
Lemma spec_FlipH_R90_cells (b : bits) :
  length b = BITS_IN_PDQ -> spec_FlipH_R90 b = spec_antitranspose b.
Proof.
  intros Hb%bits_tabulate. set (f := fun i => nth i b false) in Hb.
  clearbody f. subst b. cbv. reflexivity.
Qed.

Lemma spec_FlipH_R270_cells (b : bits) :
  length b = BITS_IN_PDQ -> spec_FlipH_R270 b = spec_transpose b.
Proof.
  intros Hb%bits_tabulate. set (f := fun i => nth i b false) in Hb.
  clearbody f. subst b. cbv. reflexivity.
Qed.

Lemma transformed_valid (hash : string) :
  valid_hash hash ->
  exists ts, PDQIndex2._get_transformed_hashes hash = Ok ts
    /\ length ts = 8 /\ Forall valid_hash ts.
Proof.
  intros [b Hb]. eexists. split; [exact (transformed_shape _ _ Hb)|].
  split; [reflexivity|].
  repeat first [apply Forall_nil | apply Forall_cons; split];
    first [by exists b | eexists; apply hex_to_binary_str_of_hex, remap_length].
Qed.

(** ** Loops *)

Lemma for_each_ext {A S : Type} (f g : S -> A -> result S) (xs : list A) (s : S) :
  (forall s x, x ∈ xs -> f s x = g s x) -> for_each f xs s = for_each g xs s.
Proof.
  revert s. induction xs as [|x xs IH]; intros s Hfg; [reflexivity|].
  simpl. rewrite Hfg by apply list_elem_of_here.
  destruct (g s x) as [s'|e]; [|reflexivity].
  rewrite !bind_Ok. apply IH. intros. apply Hfg. by apply list_elem_of_further.
Qed.

Lemma for_each_app {A S : Type} (f : S -> A -> result S) (xs ys : list A) (s : S) :
  for_each f (xs ++ ys) s = (for_each f xs s ≫= for_each f ys).
Proof.
  revert s. induction xs as [|x xs IH]; intros s; [reflexivity|].
  simpl. destruct (f s x) as [s'|e]; [|reflexivity].
  rewrite !bind_Ok. apply IH.
Qed.

Lemma for_append_Ok {A B : Type} (body : A -> result B) (g : A -> B) (xs : list A) :
  (forall x, x ∈ xs -> body x = Ok (g x)) -> for_append body xs = Ok (g <$> xs).
Proof.
  induction xs as [|x xs IH]; intros H; [reflexivity|].
  simpl. rewrite H by apply list_elem_of_here. rewrite bind_Ok, IH, bind_Ok.
  - reflexivity.
  - intros. apply H. by apply list_elem_of_further.
Qed.

Lemma for_append_Ok_length {A B : Type} (body : A -> result B) (xs : list A) ys :
  for_append body xs = Ok ys -> length ys = length xs.
Proof.
  revert ys. induction xs as [|x xs IH]; intros ys; simpl.
  - by intros [= <-].
  - intros (y & _ & (ys' & H' & [= <-])%bind_Ok_inv)%bind_Ok_inv.
    simpl. f_equal. by apply IH.
Qed.

(** ** The flat backend *)

(** On 0/1 vectors the squared Euclidean distance is the Hamming distance. *)
Lemma fvec_L2sqr_hamming (x y : bits) :
  fvec_L2sqr x y = Z.of_nat (hamming x y).
Proof.
  revert y. induction x as [|a x IH]; intros [|b y]; try reflexivity.
  cbn [fvec_L2sqr hamming]. rewrite IH. destruct a, b; simpl; lia.
Qed.

Lemma hamming_refl (x : bits) : hamming x x = 0.
Proof. induction x as [|a x IH]; [reflexivity|]. simpl. by destruct a. Qed.

Lemma hamming_le (x y : bits) : hamming x y <= length x.
Proof.
  revert y. induction x as [|a x IH]; intros [|b y]; simpl; try lia.
  specialize (IH y). destruct (xorb a b); lia.
Qed.

Lemma elem_of_range_hits (index : faiss.IndexFlatL2) (x : bits) (radius : Z)
    (i : nat) (d : Z) :
  (i, d) ∈ faiss.range_hits index x radius
  <-> exists v, index !! i = Some v /\ d = Z.of_nat (hamming x v) /\ (d < radius)%Z.
Proof.
  unfold faiss.range_hits. rewrite list_elem_of_filter, elem_of_lookup_imap.
  simpl. split.
  - intros (Hd & j & v & [= -> ->] & Hv). exists v.
    rewrite <- fvec_L2sqr_hamming. auto.
  - intros (v & Hv & -> & Hd). split; [exact Hd|].
    exists i, v. by rewrite fvec_L2sqr_hamming.
Qed.

Lemma range_hits_NoDup (index : faiss.IndexFlatL2) (x : bits) (radius : Z) :
  NoDup (faiss.range_hits index x radius).*1.
Proof.
  apply NoDup_fmap_fst.
  - intros i d1 d2 (v1 & Hv1 & -> & _)%elem_of_range_hits
                   (v2 & Hv2 & -> & _)%elem_of_range_hits.
    congruence.
  - unfold faiss.range_hits. apply NoDup_filter, NoDup_alt. intros i j p.
    rewrite !list_lookup_imap.
    intros (v1 & _ & ->)%fmap_Some (v2 & _ & [= ->])%fmap_Some. reflexivity.
Qed.

(** The loop of [search] that pairs up [matches] and [dists]. *)
Lemma search_pairs_loop (matches : list nat) (dists : list Z)
    (n k : nat) (results : list (nat * Z)) :
  length matches = length dists -> k + n = length matches ->
  for_each (fun results j =>
      m ← getitem matches j; d ← getitem dists j; Ok (results ++ [(m, d)]))
    (seq k n) results
  = Ok (results ++ zip (drop k matches) (drop k dists)).
Proof.
  intros Hlen. revert k results. induction n as [|n IH]; intros k results Hk.
  - simpl. rewrite !drop_ge by lia. by rewrite app_nil_r.
  - destruct (getitem_lt matches k ltac:(lia)) as (m & Hm & Hgm).
    destruct (getitem_lt dists k ltac:(lia)) as (d & Hd & Hgd).
    cbn [seq for_each]. rewrite Hgm, Hgd, !bind_Ok, IH by lia.
    rewrite (drop_S _ _ _ Hm), (drop_S _ _ _ Hd), <- app_assoc. reflexivity.
Qed.

(** A search for one query returns the hits of that query. *)
Lemma search_single (self : _PDQFaissIndex.t) (q : string) (threshold : Z) (b : bits) :
  hex_to_binary_str q = Ok b ->
  _PDQFaissIndex.search self [q] threshold
  = Ok (faiss.range_hits (_PDQFaissIndex.faiss_index self) b (threshold + 1)).
Proof.
  intros Hq. unfold _PDQFaissIndex.search, convert_pdq_strings_to_ndarray.
  cbn [for_append]. rewrite Hq, !bind_Ok.
  set (hits := faiss.range_hits _ _ _).
  unfold faiss.range_search. cbn [fmap list_fmap concat faiss.lims_from].
  fold hits. rewrite !app_nil_r.
  cbn [length range seq for_each getitem lookup list_lookup Nat.add].
  rewrite !bind_Ok. unfold slice. rewrite !drop_0, Nat.sub_0_r.
  rewrite !take_ge by (rewrite length_fmap; lia).
  unfold range. rewrite search_pairs_loop.
  - rewrite !drop_0, zip_fst_snd. reflexivity.
  - by rewrite !length_fmap.
  - by rewrite !length_fmap.
Qed.

Lemma search_single_Err (self : _PDQFaissIndex.t) (q : string) (threshold : Z) e :
  hex_to_binary_str q = Err e ->
  _PDQFaissIndex.search self [q] threshold = Err e.
Proof.
  intros Hq. unfold _PDQFaissIndex.search, convert_pdq_strings_to_ndarray.
  cbn [for_append]. rewrite Hq. reflexivity.
Qed.

Lemma transformed_hashes_eq (hash : string) :
  PDQIndex._get_transformed_hashes hash
  = PDQIndex2._get_transformed_hashes hash.
Proof. reflexivity. Qed.

(** C9: [PDQIndex._get_transformed_hashes] and
    [PDQIndex2._get_transformed_hashes] return the same list on every input:
    on a valid hash the same eight hashes in the same order, and on a
    malformed hash both raise the same exception. *)
Theorem get_transformed_hashes_same (hash : string) :
  PDQIndex._get_transformed_hashes hash
  = PDQIndex2._get_transformed_hashes hash
  /\ (forall b, hex_to_binary_str hash = Ok b ->
        exists ts, PDQIndex._get_transformed_hashes hash = Ok ts
          /\ PDQIndex2._get_transformed_hashes hash = Ok ts
          /\ length ts = 8)
  /\ (forall e, hex_to_binary_str hash = Err e ->
        PDQIndex._get_transformed_hashes hash = Err e
        /\ PDQIndex2._get_transformed_hashes hash = Err e).
Proof.
  split; [reflexivity|]. split.
  - intros b Hb. eexists.
    split; [rewrite transformed_hashes_eq; exact (transformed_shape _ _ Hb)|].
    split; [exact (transformed_shape _ _ Hb) | reflexivity].
  - intros e He. rewrite transformed_hashes_eq.
    unfold PDQIndex2._get_transformed_hashes. rewrite He. split; reflexivity.
Qed.

(** C2: on the hash [h0], element 6 of [_get_transformed_hashes] is the
    270 degree rotation and not flip-h then rotate 90 ([out[a][b] =
    in[15-b][15-a]]); element 7 is the 90 degree rotation and not flip-h
    then rotate 270 ([out[a][b] = in[b][a]]). *)
Theorem flipped_h_rotations_at_h0 :
  hex_to_binary_str h0 = Ok bits_h0
  /\ PDQIndex2._get_transformed_hashes h0 = Ok h0_transformed
  /\ PDQIndex._get_transformed_hashes h0 = Ok h0_transformed
  /\ h0_transformed !! 6 = Some (binary_str_to_hex (spec_R270 bits_h0))
  /\ h0_transformed !! 6 <> Some (binary_str_to_hex (spec_FlipH_R90 bits_h0))
  /\ spec_FlipH_R90 bits_h0 = remap (fun a c => (15 - c, 15 - a)) bits_h0
  /\ h0_transformed !! 7 = Some (binary_str_to_hex (spec_R90 bits_h0))
  /\ h0_transformed !! 7 <> Some (binary_str_to_hex (spec_FlipH_R270 bits_h0))
  /\ spec_FlipH_R270 bits_h0 = remap (fun a c => (c, a)) bits_h0.
Proof.
  split; [vm_compute; reflexivity|].
  split; [vm_compute; reflexivity|].
  split; [vm_compute; reflexivity|].
  split; [vm_compute; reflexivity|]. split; [vm_compute; discriminate|].
  split; [vm_compute; reflexivity|].
  split; [vm_compute; reflexivity|]. split; [vm_compute; discriminate|].
  vm_compute; reflexivity.
Qed.

Lemma not_in_h0_transformed (x : string) :
  x <> h0 -> x <> h0_r90 -> x <> h0_r180 -> x <> h0_r270 ->
  x <> h0_flipped_h -> x <> h0_flipped_v -> x ∉ h0_transformed.
Proof.
  intros ? ? ? ? ? ? H. unfold h0_transformed in H.
  repeat (apply elem_of_cons in H as [H|H]; [contradiction|]).
  by apply elem_of_nil in H.
Qed.

(** C1: on the hash [h0], the eight outputs of [_get_transformed_hashes]
    hold neither diagonal reflection of [h0], so not the image of [h0]
    under each of the eight transforms of D4, and the outputs for the
    second output (the 90 degree rotation of [h0]) hold a hash that is not
    among the outputs for [h0]: the set is not closed under D4. *)
Theorem transformed_hashes_not_closed_at_h0 :
  hex_to_binary_str h0 = Ok bits_h0
  /\ PDQIndex2._get_transformed_hashes h0 = Ok h0_transformed
  /\ PDQIndex._get_transformed_hashes h0 = Ok h0_transformed
  /\ (binary_str_to_hex (spec_transpose bits_h0) ∉ h0_transformed)
  /\ (binary_str_to_hex (spec_antitranspose bits_h0) ∉ h0_transformed)
  /\ ~ (forall x, x ∈ binary_str_to_hex <$> D4_images bits_h0 ->
                  x ∈ h0_transformed)
  /\ h0_transformed !! 1 = Some h0_r90
  /\ exists ts',
       PDQIndex2._get_transformed_hashes h0_r90 = Ok ts'
       /\ PDQIndex._get_transformed_hashes h0_r90 = Ok ts'
       /\ exists x, x ∈ ts' /\ x ∉ h0_transformed.
Proof.
  split; [vm_compute; reflexivity|].
  split; [vm_compute; reflexivity|].
  split; [vm_compute; reflexivity|].
  split; [vm_compute (binary_str_to_hex _);
          apply not_in_h0_transformed; discriminate|].
  split; [vm_compute (binary_str_to_hex _);
          apply not_in_h0_transformed; discriminate|].
  split.
  { intros H.
    assert (binary_str_to_hex (spec_FlipH_R270 bits_h0)
              ∈ binary_str_to_hex <$> D4_images bits_h0) as Hin.
    { apply list_elem_of_fmap_2. unfold D4_images.
      do 7 apply list_elem_of_further. apply list_elem_of_here. }
    apply H in Hin. revert Hin. vm_compute (binary_str_to_hex _).
    apply not_in_h0_transformed; discriminate. }
  split; [reflexivity|].
  eexists. split; [vm_compute; reflexivity|]. split; [vm_compute; reflexivity|].
  exists (binary_str_to_hex (spec_transpose bits_h0)).
  vm_compute (binary_str_to_hex _).
  split; [do 4 apply list_elem_of_further; apply list_elem_of_here|].
  apply not_in_h0_transformed; discriminate.
Qed.

(** ** [PDQIndex2]: what [add_all] does to the state *)

Ltac proj_simpl :=
  cbn [fst snd PDQIndex2.threshold PDQIndex2._index PDQIndex2._deduper
       PDQIndex2._idx_to_entries _PDQFaissIndex.faiss_index
       PDQIndex.class PDQIndex.local_id_to_entry PDQIndex.index] in *.

Section PDQIndex2_state.
Context {M : Type}.
Implicit Types (self : PDQIndex2.t M) (entries : list (string * M)).

Lemma faiss_add_one (index : _PDQFaissIndex.t) (h : string) :
  _PDQFaissIndex.add index [h] =
    match hex_to_binary_str h with
    | Ok b => ({| _PDQFaissIndex.faiss_index :=
                    _PDQFaissIndex.faiss_index index ++ [b] |}, Ok tt)
    | Err e => (index, Err e)
    end.
Proof.
  unfold _PDQFaissIndex.add, convert_pdq_strings_to_ndarray. cbn [for_append].
  destruct (hex_to_binary_str h); reflexivity.
Qed.

Lemma add_all_cons self h i rest :
  PDQIndex2.add_all self ((h, i) :: rest) =
    match PDQIndex2.add self h i with
    | (self', Ok _) => PDQIndex2.add_all self' rest
    | (self', Err e) => (self', Err e)
    end.
Proof.
  unfold PDQIndex2.add. cbn [PDQIndex2.add_all].
  destruct (PDQIndex2._deduper self !! h) as [k|].
  - destruct (PDQIndex2.append_at _ k i); reflexivity.
  - destruct (_PDQFaissIndex.add _ [h]) as [index' [[]|e]]; reflexivity.
Qed.

Lemma add_all_app self xs ys :
  PDQIndex2.add_all self (xs ++ ys) =
    match PDQIndex2.add_all self xs with
    | (self', Ok _) => PDQIndex2.add_all self' ys
    | (self', Err e) => (self', Err e)
    end.
Proof.
  revert self. induction xs as [|[h i] xs IH]; intros self; [reflexivity|].
  rewrite <- app_comm_cons, !add_all_cons.
  destruct (PDQIndex2.add self h i) as [self' [[]|e]]; [apply IH | reflexivity].
Qed.

Lemma add_threshold self h i :
  PDQIndex2.threshold (PDQIndex2.add self h i).1 = PDQIndex2.threshold self.
Proof.
  unfold PDQIndex2.add. cbn [PDQIndex2.add_all].
  destruct (PDQIndex2._deduper self !! h) as [k|].
  - destruct (PDQIndex2.append_at _ k i); reflexivity.
  - destruct (_PDQFaissIndex.add _ [h]) as [index' [[]|e]]; reflexivity.
Qed.

Lemma add_invariant self h i :
  PDQIndex2.invariant self -> PDQIndex2.invariant (PDQIndex2.add self h i).1.
Proof.
  intros (Hsize & Hlen & Hded & Hne). unfold PDQIndex2.add.
  cbn [PDQIndex2.add_all].
  destruct (PDQIndex2._deduper self !! h) as [k|] eqn:Hh.
  - unfold PDQIndex2.append_at.
    destruct (getitem (PDQIndex2._idx_to_entries self) k) as [es|e];
      [|by repeat split].
    rewrite bind_Ok. repeat split; proj_simpl.
    + by rewrite length_insert.
    + by rewrite length_insert.
    + exact Hded.
    + apply Forall_insert; [exact Hne|]. by destruct es.
  - rewrite faiss_add_one.
    destruct (hex_to_binary_str h) as [b|e] eqn:Hb; [|by repeat split].
    repeat split; proj_simpl.
    + rewrite map_size_insert_None by exact Hh.
      rewrite List.length_app. simpl. lia.
    + rewrite !List.length_app. simpl. lia.
    + intros h' k. destruct (decide (h = h')) as [<-|Hne'].
      * rewrite lookup_insert_eq. intros [= <-]. exists b. split; [exact Hb|].
        rewrite Hsize, Hlen. rewrite lookup_app_r by lia.
        by rewrite Nat.sub_diag.
      * rewrite lookup_insert_ne by exact Hne'. intros Hk.
        destruct (Hded _ _ Hk) as (b' & Hb' & Hv). exists b'.
        split; [exact Hb'|]. by apply lookup_app_l_Some.
    + apply Forall_app. split; [exact Hne|]. by repeat constructor.
Qed.

Lemma add_all_invariant self entries :
  PDQIndex2.invariant self -> PDQIndex2.invariant (PDQIndex2.add_all self entries).1.
Proof.
  revert self. induction entries as [|[h i] rest IH]; intros self Hinv;
    [exact Hinv|].
  rewrite add_all_cons. pose proof (add_invariant self h i Hinv) as H1.
  destruct (PDQIndex2.add self h i) as [self' [[]|e]]; [by apply IH | exact H1].
Qed.

Lemma add_all_threshold self entries :
  PDQIndex2.threshold (PDQIndex2.add_all self entries).1 = PDQIndex2.threshold self.
Proof.
  revert self. induction entries as [|[h i] rest IH]; intros self;
    [reflexivity|].
  rewrite add_all_cons. pose proof (add_threshold self h i) as H1.
  destruct (PDQIndex2.add self h i) as [self' [[]|e]]; [|exact H1].
  simpl in H1. by rewrite IH.
Qed.

Lemma empty_invariant (threshold : Z) :
  PDQIndex2.invariant (PDQIndex2.empty (M:=M) threshold).
Proof.
  unfold PDQIndex2.empty. repeat split; proj_simpl.
  - intros h i. rewrite lookup_empty. discriminate.
  - constructor.
Qed.

Lemma step_invariant self (c : call M) :
  PDQIndex2.invariant self -> PDQIndex2.invariant (PDQIndex2.step self c).
Proof. destruct c; apply add_all_invariant. Qed.

Lemma run_invariant self (cs : list (call M)) :
  PDQIndex2.invariant self -> PDQIndex2.invariant (PDQIndex2.run self cs).
Proof.
  revert self. induction cs as [|c cs IH]; intros self Hinv; [exact Hinv|].
  apply IH, step_invariant, Hinv.
Qed.

Lemma run_threshold self (cs : list (call M)) :
  PDQIndex2.threshold (PDQIndex2.run self cs) = PDQIndex2.threshold self.
Proof.
  revert self. induction cs as [|c cs IH]; intros self; [reflexivity|].
  cbn [PDQIndex2.run foldl]. fold (PDQIndex2.run (PDQIndex2.step self c) cs).
  rewrite IH. destruct c; apply add_all_threshold.
Qed.

Lemma invariant_ids_in_range self :
  PDQIndex2.invariant self -> PDQIndex2.ids_in_range self.
Proof. intros (_ & Hlen & _). unfold PDQIndex2.ids_in_range. lia. Qed.

(** The constructor with entries is the empty index followed by one
    [add_all]; it raises when that raises. *)
Lemma init_run entries (threshold : Z) self :
  PDQIndex2.__init__ entries threshold = Ok self ->
  self = PDQIndex2.run (PDQIndex2.empty threshold) [AddAll entries].
Proof.
  unfold PDQIndex2.__init__. cbn [PDQIndex2.run foldl PDQIndex2.step].
  fold (PDQIndex2.empty (M:=M) threshold).
  destruct (PDQIndex2.add_all _ entries) as [self' [[]|e]]; [|discriminate].
  by intros [= <-].
Qed.

End PDQIndex2_state.

(** C8: after every sequence of [add] and [add_all] calls on a [PDQIndex2]
    created empty (calls that raise included), the dedup map, the entry list
    and the backend have the same size, every hash mapped to an id is a valid
    hash whose vector the backend stores at that position, and no entry list
    is empty. *)
Theorem PDQIndex2_invariant {M : Type} (threshold : Z) (cs : list (call M)) :
  PDQIndex2.invariant (PDQIndex2.run (PDQIndex2.empty threshold) cs).
Proof. apply run_invariant, empty_invariant. Qed.

(** ** First hits *)

Lemma elem_of_concat {A : Type} (x : A) (ls : list (list A)) :
  x ∈ concat ls <-> exists l, x ∈ l /\ l ∈ ls.
Proof.
  rewrite list_elem_of_In, in_concat. split.
  - intros (l & Hl & Hx). exists l. by rewrite !list_elem_of_In.
  - intros (l & Hx & Hl). exists l. by rewrite <- !list_elem_of_In.
Qed.

Lemma first_hits_app (seen : gset nat) (a b : list (nat * Z)) :
  first_hits seen (a ++ b)
  = first_hits seen a ++ first_hits (list_to_set (a.*1) ∪ seen) b.
Proof.
  revert seen. induction a as [|[id d] a IH]; intros seen.
  - simpl. f_equal. set_solver.
  - cbn [first_hits app fmap list_fmap list_to_set fst].
    destruct (decide (id ∈ seen)) as [Hin|Hnin].
    + rewrite IH. do 2 f_equal. set_solver.
    + rewrite IH, <- app_comm_cons. do 3 f_equal. set_solver.
Qed.

Lemma first_hits_unseen (seen : gset nat) (hits : list (nat * Z)) (id : nat) :
  id ∈ (first_hits seen hits).*1 -> (id ∉ seen) /\ (id ∈ hits.*1).
Proof.
  revert seen. induction hits as [|[id' d'] hits IH]; intros seen; simpl.
  - by intros ?%elem_of_nil.
  - destruct (decide (id' ∈ seen)) as [Hin|Hnin].
    + intros [? ?]%IH. split; [done|]. by apply list_elem_of_further.
    + cbn [fmap list_fmap fst]. intros [->|[? ?]%IH]%elem_of_cons.
      * split; [done|]. apply list_elem_of_here.
      * split; [set_solver|]. by apply list_elem_of_further.
Qed.

Lemma first_hits_NoDup (seen : gset nat) (hits : list (nat * Z)) :
  NoDup (first_hits seen hits).*1.
Proof.
  revert seen. induction hits as [|[id d] hits IH]; intros seen; simpl.
  - constructor.
  - destruct (decide (id ∈ seen)); [apply IH|].
    cbn [fmap list_fmap fst]. constructor; [|apply IH].
    intros [Hnin _]%first_hits_unseen. set_solver.
Qed.

(** Every id that is hit and not seen before has a first hit. *)
Lemma first_hits_complete (seen : gset nat) (hits : list (nat * Z)) (id : nat) :
  id ∈ hits.*1 -> id ∉ seen -> id ∈ (first_hits seen hits).*1.
Proof.
  revert seen. induction hits as [|[id' d'] hits IH]; intros seen; simpl.
  - by intros ?%elem_of_nil.
  - intros [->|Hin]%elem_of_cons Hseen.
    + rewrite decide_False by done. apply list_elem_of_here.
    + destruct (decide (id' ∈ seen)); [by apply IH|].
      cbn [fmap list_fmap fst]. destruct (decide (id = id')) as [->|Hne].
      * apply list_elem_of_here.
      * apply list_elem_of_further, IH; [done|set_solver].
Qed.

Lemma first_hits_subset (seen : gset nat) (hits : list (nat * Z)) (hit : nat * Z) :
  hit ∈ first_hits seen hits -> hit ∈ hits.
Proof.
  revert seen. induction hits as [|[id' d'] hits IH]; intros seen; simpl.
  - by intros ?%elem_of_nil.
  - destruct (decide (id' ∈ seen)).
    + intros ?%IH. by apply list_elem_of_further.
    + intros [->|?%IH]%elem_of_cons;
        [apply list_elem_of_here | by apply list_elem_of_further].
Qed.

(** A first hit of the concatenated hits comes from the first orientation
    that hit its id. *)
Lemma first_hits_first_orientation (seen : gset nat)
    (per : list (list (nat * Z))) (id : nat) (d : Z) :
  (id, d) ∈ first_hits seen (concat per) -> first_orientation_hit per id d.
Proof.
  revert seen. induction per as [|r per IH]; intros seen; simpl.
  - by intros ?%elem_of_nil.
  - rewrite first_hits_app. intros [Hr|Hper]%elem_of_app.
    + exists 0, r. split; [reflexivity|].
      split; [by apply first_hits_subset in Hr|]. intros; lia.
    + assert (id ∉ (list_to_set (r.*1) ∪ seen : gset nat)) as Hid.
      { apply (first_hits_unseen _ (concat per)), list_elem_of_fmap.
        by exists (id, d). }
      destruct (IH _ Hper) as (k & r' & Hk & Hin & Hfirst).
      exists (S k), r'. split; [exact Hk|]. split; [exact Hin|].
      intros [|k'] r'' Hlt; simpl.
      * intros [= <-]. set_solver.
      * apply Hfirst. lia.
Qed.


Lemma first_hits_NoDup_id (seen : gset nat) (hits : list (nat * Z)) :
  NoDup hits.*1 -> (forall id, id ∈ hits.*1 -> id ∉ seen) ->
  first_hits seen hits = hits.
Proof.
  revert seen. induction hits as [|[id d] hits IH]; intros seen Hnd Hseen;
    [reflexivity|].
  cbn [fmap list_fmap fst] in Hnd, Hseen. apply NoDup_cons in Hnd as [Hid Hnd].
  simpl. rewrite decide_False by (apply Hseen, list_elem_of_here).
  f_equal. apply IH; [done|]. intros id' Hid'.
  assert (id' ∉ seen) by (by apply Hseen, list_elem_of_further).
  assert (id' <> id) by congruence. set_solver.
Qed.

(** ** The de-duplicating loops of [query]

    Both [query] methods run the same two nested loops: over the
    orientations, and over the hits of one orientation, skipping the ids in
    [seen_ids].  They differ in the shape of a hit ([key] projects it to its
    id and distance), in where the hits of an orientation come from
    ([get_hits]) and in the matches a new id gives ([emit]). *)
Section Dedup.
Context {M H : Type}.
Variable key : H -> nat * Z.
Variable emit : nat * Z -> result (list (IndexMatch M)).
Variable emitted : nat * Z -> list (IndexMatch M).
Variable body :
  list (IndexMatch M) * gset nat -> H -> result (list (IndexMatch M) * gset nat).
Variable get_hits : string -> result (list H).

Hypothesis emit_Ok : forall hit ms, emit hit = Ok ms -> ms = emitted hit.
Hypothesis body_spec : forall all_matches seen_ids hit,
  body (all_matches, seen_ids) hit =
    if decide ((key hit).1 ∈ seen_ids) then Ok (all_matches, seen_ids)
    else ms ← emit (key hit);
         Ok (all_matches ++ ms, {[(key hit).1]} ∪ seen_ids).

Lemma dedup_inner_inv hits all_matches seen_ids all_matches' seen_ids' :
  for_each body hits (all_matches, seen_ids) = Ok (all_matches', seen_ids') ->
  all_matches'
    = all_matches ++ flat_map emitted (first_hits seen_ids (key <$> hits))
  /\ seen_ids' = list_to_set (key <$> hits).*1 ∪ seen_ids.
Proof.
  revert all_matches seen_ids.
  induction hits as [|hit hits IH]; intros all_matches seen_ids.
  - simpl. intros [= <- <-]. split; [by rewrite app_nil_r | set_solver].
  - cbn [for_each fmap list_fmap first_hits]. rewrite body_spec.
    destruct (key hit) as [id d] eqn:Hkey. cbn [fst].
    destruct (decide (id ∈ seen_ids)) as [Hin|Hnin].
    + rewrite bind_Ok. intros [-> ->]%IH. split; [reflexivity|].
      cbn [fmap list_fmap list_to_set fst]. set_solver.
    + destruct (emit (id, d)) as [ms|e] eqn:Hemit; [|intros; discriminate].
      rewrite !bind_Ok. intros [-> ->]%IH.
      cbn [flat_map fmap list_fmap list_to_set fst].
      rewrite <- (emit_Ok _ _ Hemit), <- app_assoc.
      split; [reflexivity | set_solver].
Qed.

Lemma dedup_inner_Ok hits st :
  (forall hit, hit ∈ hits -> exists ms, emit (key hit) = Ok ms) ->
  exists st', for_each body hits st = Ok st'.
Proof.
  revert st. induction hits as [|hit hits IH]; intros [all_matches seen_ids] Hok.
  - eexists. reflexivity.
  - cbn [for_each]. rewrite body_spec.
    destruct (decide ((key hit).1 ∈ seen_ids)).
    + rewrite bind_Ok. apply IH. intros. by apply Hok, list_elem_of_further.
    + destruct (Hok hit) as [ms ->]; [apply list_elem_of_here|].
      rewrite !bind_Ok. apply IH. intros. by apply Hok, list_elem_of_further.
Qed.

(** The body of the outer loop. *)
Local Abbreviation outer :=
  (fun (st : list (IndexMatch M) * gset nat) (t : string) =>
     hits ← get_hits t; for_each body hits st).

Lemma dedup_outer_inv ts all_matches seen_ids all_matches' seen_ids' :
  for_each outer ts (all_matches, seen_ids) = Ok (all_matches', seen_ids') ->
  exists per,
    Forall2 (fun t r => get_hits t = Ok r) ts per
    /\ all_matches'
       = all_matches
         ++ flat_map emitted (first_hits seen_ids (key <$> concat per)).
Proof.
  revert all_matches seen_ids.
  induction ts as [|t ts IH]; intros all_matches seen_ids.
  - cbn [for_each]. intros [= <- <-]. exists []. split; [constructor|].
    by rewrite app_nil_r.
  - cbn [for_each].
    destruct (get_hits t) as [r|e] eqn:Hr; [|intros; discriminate].
    rewrite bind_Ok.
    destruct (for_each body r (all_matches, seen_ids)) as [[a1 s1]|e] eqn:H1;
      [|intros; discriminate].
    rewrite bind_Ok. apply dedup_inner_inv in H1 as [-> ->].
    intros (per & Hper & ->)%IH. exists (r :: per).
    split; [by constructor|].
    cbn [concat]. rewrite fmap_app, first_hits_app, flat_map_app, app_assoc.
    reflexivity.
Qed.

Lemma dedup_outer_Ok ts st :
  (forall t, t ∈ ts -> exists r, get_hits t = Ok r
     /\ forall hit, hit ∈ r -> exists ms, emit (key hit) = Ok ms) ->
  exists st', for_each outer ts st = Ok st'.
Proof.
  revert st. induction ts as [|t ts IH]; intros st Hok.
  - eexists. reflexivity.
  - cbn [for_each].
    destruct (Hok t) as (r & -> & Hr); [apply list_elem_of_here|].
    rewrite bind_Ok. destruct (dedup_inner_Ok r st Hr) as [st' ->].
    rewrite bind_Ok. apply IH. intros. by apply Hok, list_elem_of_further.
Qed.

End Dedup.

(** ** [PDQIndex2.query] *)

Section PDQIndex2_query.
Context {M : Type}.
Implicit Types (self : PDQIndex2.t M).

Lemma emit_entries_Ok (entries : list (list M)) (hit : nat * Z) ms :
  emit_entries entries hit = Ok ms -> ms = matches_of_entries entries hit.
Proof.
  unfold emit_entries, matches_of_entries, getitem.
  destruct (entries !! hit.1); [|intros; discriminate].
  rewrite bind_Ok. by intros [= <-].
Qed.

Lemma query2_body_spec self (all_matches : list (IndexMatch M))
    (seen_ids : gset nat) (hit : nat * Z) :
  (let '(all_matches, seen_ids) := (all_matches, seen_ids) in
   let '(match_, distance) := hit in
   if decide (match_ ∈ seen_ids) then Ok (all_matches, seen_ids)
   else
     let seen_ids := {[match_]} ∪ seen_ids in
     entries ← getitem (PDQIndex2._idx_to_entries self) match_;
     Ok (all_matches ++ (PDQIndexMatch distance <$> (entries : list M)),
         seen_ids))
  = if decide (hit.1 ∈ seen_ids) then Ok (all_matches, seen_ids)
    else ms ← emit_entries (PDQIndex2._idx_to_entries self) hit;
         Ok (all_matches ++ ms, {[hit.1]} ∪ seen_ids).
Proof.
  destruct hit as [id d]. cbn [fst snd]. unfold emit_entries.
  destruct (decide (id ∈ seen_ids)); [reflexivity|].
  cbn [fst snd]. destruct (getitem _ id); reflexivity.
Qed.

(** What [query] returns when it returns: the matches of the first hit of
    every id, over the hits of the orientations in order. *)
Lemma PDQIndex2_query_inv self (hash : string) ms :
  PDQIndex2.query self hash = Ok ms ->
  exists ts per,
    PDQIndex2._get_transformed_hashes hash = Ok ts
    /\ Forall2 (fun t r =>
         _PDQFaissIndex.search (PDQIndex2._index self) [t]
           (PDQIndex2.threshold self) = Ok r) ts per
    /\ ms = flat_map (matches_of_entries (PDQIndex2._idx_to_entries self))
              (first_hits ∅ (concat per)).
Proof.
  unfold PDQIndex2.query.
  intros (ts & Hts & ([all_matches seen_ids] & Hloop & [= <-])%bind_Ok_inv)%bind_Ok_inv.
  exists ts.
  eapply (dedup_outer_inv (fun hit => hit)
            (emit_entries (PDQIndex2._idx_to_entries self))
            (matches_of_entries (PDQIndex2._idx_to_entries self)))
    in Hloop as (per & Hper & ->).
  - exists per. rewrite list_fmap_id. auto.
  - apply emit_entries_Ok.
  - intros. apply query2_body_spec.
Qed.

Lemma search_hit_in_range self (t : string) r (id : nat) (d : Z) :
  PDQIndex2.ids_in_range self ->
  _PDQFaissIndex.search (PDQIndex2._index self) [t] (PDQIndex2.threshold self)
    = Ok r ->
  (id, d) ∈ r -> id < length (PDQIndex2._idx_to_entries self).
Proof.
  intros Hrange Hr Hin.
  destruct (hex_to_binary_str t) as [b|e] eqn:Hb.
  - rewrite (search_single _ _ _ _ Hb) in Hr. injection Hr as <-.
    apply elem_of_range_hits in Hin as (v & Hv%lookup_lt_Some & _).
    unfold PDQIndex2.ids_in_range in Hrange. lia.
  - by rewrite (search_single_Err _ _ _ _ Hb) in Hr.
Qed.

(** On a valid hash and a state whose backend ids are positions of the
    entry list, [query] returns. *)
Lemma PDQIndex2_query_Ok self (hash : string) :
  valid_hash hash -> PDQIndex2.ids_in_range self ->
  exists ms, PDQIndex2.query self hash = Ok ms.
Proof.
  intros (ts & Hts & _ & Hvalid)%transformed_valid Hrange.
  unfold PDQIndex2.query. rewrite Hts, bind_Ok.
  edestruct (dedup_outer_Ok (M:=M) (fun hit => hit)
               (emit_entries (PDQIndex2._idx_to_entries self))) as [st' Hst'];
    [| |rewrite Hst', bind_Ok; eauto].
  - intros. apply query2_body_spec.
  - intros t Ht. rewrite Forall_forall in Hvalid.
    destruct (Hvalid t Ht) as [b Hb].
    eexists. split; [exact (search_single _ _ _ _ Hb)|].
    intros [id d] Hin. cbn [fst snd].
    assert (id < length (PDQIndex2._idx_to_entries self)) as Hlt.
    { eapply search_hit_in_range; [done|exact (search_single _ _ _ _ Hb)|done]. }
    unfold emit_entries. cbn [fst snd].
    destruct (getitem_lt _ _ Hlt) as (es & _ & ->). rewrite bind_Ok. eauto.
Qed.

End PDQIndex2_query.

(** ** [PDQIndex]: state and [query] *)

Section PDQIndex_props.
Context {M : Type}.
Implicit Types (self : PDQIndex.t M) (entries : list (string * M)).

Lemma hash_bits_Ok (h : string) :
  valid_hash h -> hex_to_binary_str h = Ok (hash_bits h).
Proof. intros [b Hb]. unfold hash_bits. by rewrite Hb. Qed.

Lemma convert_valid (hs : list string) :
  Forall valid_hash hs ->
  convert_pdq_strings_to_ndarray hs = Ok (hash_bits <$> hs).
Proof.
  intros Hvalid. apply for_append_Ok. intros h Hh.
  apply hash_bits_Ok. rewrite Forall_forall in Hvalid. by apply Hvalid.
Qed.

Lemma elem_of_hits_of (index : PDQHashIndex.t) (x : bits) (threshold : Z)
    (id : nat) (v : bits) (d : Z) :
  (id, v, d) ∈ PDQHashIndex.hits_of index x threshold
  <-> (id, v) ∈ index /\ d = Z.of_nat (hamming x v) /\ (d <= threshold)%Z.
Proof.
  unfold PDQHashIndex.hits_of. rewrite list_elem_of_filter, list_elem_of_fmap.
  cbn [snd]. split.
  - intros (Hd & [id' v'] & [= -> -> ->] & Hin). auto.
  - intros (Hin & -> & Hd). split; [exact Hd|]. by exists (id, v).
Qed.

Lemma foldl_insert_lookup {V : Type} (F : string -> V) (ts : list string)
    (acc : gmap string V) (t : string) :
  foldl (fun result '(query, match_tuples) => <[query := match_tuples]> result)
    acc ((fun t => (t, F t)) <$> ts) !! t
  = if decide (t ∈ ts) then Some (F t) else acc !! t.
Proof.
  revert acc. induction ts as [|t0 ts IH]; intros acc.
  - cbn [fmap list_fmap foldl]. rewrite decide_False; [done|].
    by intros ?%elem_of_nil.
  - cbn [fmap list_fmap foldl]. rewrite IH.
    destruct (decide (t ∈ ts)) as [Hin|Hnin].
    + rewrite decide_True; [done|]. by apply list_elem_of_further.
    + destruct (decide (t0 = t)) as [->|Hne].
      * rewrite lookup_insert_eq, decide_True; [done|]. apply list_elem_of_here.
      * rewrite lookup_insert_ne by done. rewrite decide_False; [done|].
        intros [->|?]%elem_of_cons; done.
Qed.

Lemma zip_fmap_fmap {A B C : Type} (g : A -> B) (h : B -> C) (l : list A) :
  zip l (h <$> (g <$> l)) = (fun a => (a, h (g a))) <$> l.
Proof. induction l as [|a l IH]; [reflexivity|]. cbn. by rewrite IH. Qed.

(** The batched search on valid queries: the dict has the hits of every
    query. *)
Lemma search_with_distance_valid (index : PDQHashIndex.t) (ts : list string)
    (threshold : Z) :
  Forall valid_hash ts ->
  exists results,
    PDQHashIndex.search_with_distance_in_result index ts threshold = Ok results
    /\ forall t, t ∈ ts ->
         results !! t = Some (PDQHashIndex.hits_of index (hash_bits t) threshold).
Proof.
  intros Hvalid. unfold PDQHashIndex.search_with_distance_in_result.
  rewrite (convert_valid _ Hvalid), bind_Ok. eexists. split; [reflexivity|].
  intros t Ht. rewrite zip_fmap_fmap.
  rewrite (foldl_insert_lookup
             (fun t => PDQHashIndex.hits_of index (hash_bits t) threshold)).
  by rewrite decide_True.
Qed.

Lemma emit_entry_Ok entries (hit : nat * Z) ms :
  emit_entry entries hit = Ok ms -> ms = match_of_entry entries hit.
Proof.
  unfold emit_entry, match_of_entry, getitem.
  destruct (entries !! hit.1); [|intros; discriminate].
  rewrite bind_Ok. by intros [= <-].
Qed.

Lemma query1_body_spec self (all_matches : list (IndexMatch M))
    (seen_ids : gset nat) (hit : nat * bits * Z) :
  (let '(all_matches, seen_ids) := (all_matches, seen_ids) in
   let '(id, _, distance) := hit in
   if decide (id ∈ seen_ids) then Ok (all_matches, seen_ids)
   else
     let seen_ids := {[id]} ∪ seen_ids in
     entry ← getitem (PDQIndex.local_id_to_entry self) id;
     Ok (all_matches ++ [PDQIndexMatch distance entry.2], seen_ids))
  = if decide ((hit_key hit).1 ∈ seen_ids) then Ok (all_matches, seen_ids)
    else ms ← emit_entry (PDQIndex.local_id_to_entry self) (hit_key hit);
         Ok (all_matches ++ ms, {[(hit_key hit).1]} ∪ seen_ids).
Proof.
  destruct hit as [[id v] d]. unfold emit_entry. cbn [hit_key fst snd].
  destruct (decide (id ∈ seen_ids)); [reflexivity|].
  destruct (getitem _ id); reflexivity.
Qed.

Lemma PDQIndex_query_inv self (hash : string) ms :
  PDQIndex.query self hash = Ok ms ->
  exists ts results per,
    PDQIndex._get_transformed_hashes hash = Ok ts
    /\ PDQHashIndex.search_with_distance_in_result (PDQIndex.index self) ts
         (PDQIndex.get_match_threshold (PDQIndex.class self)) = Ok results
    /\ Forall2 (fun t r => results !! t = Some r) ts per
    /\ ms = flat_map (match_of_entry (PDQIndex.local_id_to_entry self))
              (first_hits ∅ (hit_key <$> concat per)).
Proof.
  unfold PDQIndex.query.
  intros (ts & Hts & (results & Hres
            & ([all_matches seen_ids] & Hloop & [= <-])%bind_Ok_inv)%bind_Ok_inv)%bind_Ok_inv.
  exists ts, results.
  eapply (dedup_outer_inv hit_key
            (emit_entry (PDQIndex.local_id_to_entry self))
            (match_of_entry (PDQIndex.local_id_to_entry self)))
    in Hloop as (per & Hper & ->).
  - exists per. repeat split; try done.
    eapply Forall2_impl; [exact Hper|]. intros t r. cbn beta.
    unfold PDQIndex.dict_get. destruct (results !! t); [|discriminate].
    by intros [= ->].
  - apply emit_entry_Ok.
  - intros. apply query1_body_spec.
Qed.

Lemma PDQIndex_query_Ok self (hash : string) :
  valid_hash hash -> PDQIndex.ids_in_range self ->
  exists ms, PDQIndex.query self hash = Ok ms.
Proof.
  intros (ts & Hts & _ & Hvalid)%transformed_valid Hrange.
  unfold PDQIndex.query. rewrite transformed_hashes_eq, Hts, bind_Ok.
  destruct (search_with_distance_valid (PDQIndex.index self) ts
              (PDQIndex.get_match_threshold (PDQIndex.class self)) Hvalid)
    as (results & -> & Hres).
  rewrite bind_Ok.
  edestruct (dedup_outer_Ok (M:=M) hit_key
               (emit_entry (PDQIndex.local_id_to_entry self))) as [st' Hst'];
    [| |rewrite Hst', bind_Ok; eauto].
  - intros. apply query1_body_spec.
  - intros t Ht. unfold PDQIndex.dict_get. rewrite (Hres t Ht).
    eexists. split; [reflexivity|].
    intros [[id v] d] (Hin & _)%elem_of_hits_of. unfold emit_entry.
    cbn [hit_key fst snd].
    destruct (getitem_lt _ _ (Hrange _ _ Hin)) as (e & _ & ->).
    rewrite bind_Ok. eauto.
Qed.

Lemma PDQIndex_add_all_ids_in_range self entries :
  PDQIndex.ids_in_range self ->
  PDQIndex.ids_in_range (PDQIndex.add_all self entries).1.
Proof.
  intros Hrange. unfold PDQIndex.add_all. proj_simpl.
  assert (forall id v, (id, v) ∈ PDQIndex.index self ->
            id < length (PDQIndex.local_id_to_entry self ++ entries)) as Hold.
  { intros id v Hin%Hrange. rewrite List.length_app. lia. }
  case_decide as Hgrow; [|exact Hold].
  unfold PDQHashIndex.add.
  destruct (convert_pdq_strings_to_ndarray _) as [vectors|e]; [|exact Hold].
  intros id v. proj_simpl. intros [Hin|Hin]%elem_of_app; [by eapply Hold|].
  apply elem_of_zip_l, elem_of_seq in Hin. lia.
Qed.

Lemma PDQIndex_run_ids_in_range self (cs : list (call M)) :
  PDQIndex.ids_in_range self -> PDQIndex.ids_in_range (PDQIndex.run self cs).
Proof.
  revert self. induction cs as [|c cs IH]; intros self Hrange; [exact Hrange|].
  apply IH. destruct c; apply PDQIndex_add_all_ids_in_range, Hrange.
Qed.

Lemma PDQIndex_empty_ids_in_range (c : PDQIndex.cls) :
  PDQIndex.ids_in_range (PDQIndex.empty (M:=M) c).
Proof. intros id v Hin. by apply elem_of_nil in Hin. Qed.

End PDQIndex_props.

(** ** The claims about [query] *)


Lemma first_hits_matches_concat {M : Type} (per : list (list (nat * Z)))
    (expand : nat * Z -> list (IndexMatch M)) :
  first_hit_matches per expand (flat_map expand (first_hits ∅ (concat per))).
Proof.
  exists (first_hits ∅ (concat per)). split; [reflexivity|].
  split; [apply first_hits_NoDup|]. split.
  - intros id d. apply first_hits_first_orientation.
  - intros r id d Hr Hin. apply first_hits_complete; [|set_solver].
    apply list_elem_of_fmap. exists (id, d). split; [reflexivity|].
    apply elem_of_concat. eauto.
Qed.

Lemma PDQIndex2_lookups_in_range_of {M : Type} (self : PDQIndex2.t M) (hash : string) :
  valid_hash hash -> PDQIndex2.ids_in_range self ->
  PDQIndex2_lookups_in_range self hash.
Proof.
  intros Hvalid Hrange.
  destruct (transformed_valid _ Hvalid) as (ts & Hts & _ & Hvts).
  exists ts. split; [exact Hts|]. split; [|by apply PDQIndex2_query_Ok].
  intros t Ht. rewrite Forall_forall in Hvts. destruct (Hvts t Ht) as [b Hb].
  eexists. split; [exact (search_single _ _ _ _ Hb)|].
  intros id d Hin.
  eapply search_hit_in_range; [done|exact (search_single _ _ _ _ Hb)|done].
Qed.

Lemma PDQIndex_lookups_in_range_of {M : Type} (self : PDQIndex.t M) (hash : string) :
  valid_hash hash -> PDQIndex.ids_in_range self ->
  PDQIndex_lookups_in_range self hash.
Proof.
  intros Hvalid Hrange.
  destruct (transformed_valid _ Hvalid) as (ts & Hts & _ & Hvts).
  destruct (search_with_distance_valid (PDQIndex.index self) ts
              (PDQIndex.get_match_threshold (PDQIndex.class self)) Hvts)
    as (results & Hres & Hlookup).
  exists ts, results. split; [by rewrite transformed_hashes_eq|].
  split; [exact Hres|]. split; [|by apply PDQIndex_query_Ok].
  intros t Ht. eexists. split; [exact (Hlookup t Ht)|].
  intros id v d (Hin & _)%elem_of_hits_of. by eapply Hrange.
Qed.

(** C10: for every index built from empty by [add] and [add_all] calls and
    every valid query hash, every id that the backend search returns during
    [query] is a position of the entry list ([_idx_to_entries] of
    [PDQIndex2], [local_id_to_entry] of [PDQIndex]), and [query] returns
    without an out-of-range lookup. *)
Theorem query_lookups_in_range {M : Type} (threshold : Z) (c : PDQIndex.cls)
    (cs : list (call M)) (hash : string) :
  valid_hash hash ->
  PDQIndex2_lookups_in_range (PDQIndex2.run (PDQIndex2.empty threshold) cs) hash
  /\ PDQIndex_lookups_in_range (PDQIndex.run (PDQIndex.empty c) cs) hash.
Proof.
  intros Hvalid. split.
  - apply PDQIndex2_lookups_in_range_of; [exact Hvalid|].
    apply invariant_ids_in_range, run_invariant, empty_invariant.
  - apply PDQIndex_lookups_in_range_of; [exact Hvalid|].
    apply PDQIndex_run_ids_in_range, PDQIndex_empty_ids_in_range.
Qed.

Lemma query_lookups_in_range_witness :
  valid_hash h0
  /\ PDQIndex2_lookups_in_range
       (PDQIndex2.run (PDQIndex2.empty 31)
          [Add h0 1; AddAll [(h0, 2); (h0_r90, 3)]]) h0
  /\ PDQIndex_lookups_in_range
       (PDQIndex.run (PDQIndex.empty PDQIndex.PDQIndex)
          [Add h0 1; AddAll [(h0, 2); (h0_r90, 3)]]) h0.
Proof.
  split.
  - exists bits_h0. vm_compute. reflexivity.
  - apply (query_lookups_in_range 31 PDQIndex.PDQIndex
             [Add h0 1; AddAll [(h0, 2); (h0_r90, 3)]] h0).
    exists bits_h0. vm_compute. reflexivity.
Defined.

Lemma Forall2_elem_of_r {A B : Type} (P : A -> B -> Prop) (l : list A)
    (k : list B) (y : B) :
  Forall2 P l k -> y ∈ k -> exists x, x ∈ l /\ P x y.
Proof.
  intros HF (i & Hi)%list_elem_of_lookup.
  destruct (Forall2_lookup_r _ _ _ _ _ HF Hi) as (x & Hx & HP).
  exists x. split; [|exact HP]. apply list_elem_of_lookup. eauto.
Qed.

(** C7: every match that [PDQIndex2.query] returns has a distance of at most
    the threshold of the index, equal to the Hamming distance between one of
    the transformed query hashes and the stored hash of the match; and
    [query] returns on every state whose backend ids are in range. *)
Theorem query_distances {M : Type} (self : PDQIndex2.t M) (hash : string) :
  valid_hash hash ->
  (forall ms, PDQIndex2.query self hash = Ok ms ->
     forall m, m ∈ ms -> true_distance_match self hash m)
  /\ (PDQIndex2.ids_in_range self -> exists ms, PDQIndex2.query self hash = Ok ms).
Proof.
  intros Hvalid. split; [|by apply PDQIndex2_query_Ok].
  intros ms (ts & per & Hts & Hper & ->)%PDQIndex2_query_inv m Hm.
  apply list_elem_of_In, in_flat_map in Hm as ([id d] & Hhit%list_elem_of_In & Hm%list_elem_of_In).
  apply first_hits_subset, elem_of_concat in Hhit as (r & Hin & Hr).
  destruct (Forall2_elem_of_r _ _ _ _ Hper Hr) as (t & Ht & Hsearch).
  destruct (hex_to_binary_str t) as [b|e] eqn:Hb;
    [|by rewrite (search_single_Err _ _ _ _ Hb) in Hsearch].
  rewrite (search_single _ _ _ _ Hb) in Hsearch. injection Hsearch as <-.
  apply elem_of_range_hits in Hin as (v & Hv & -> & Hd).
  unfold matches_of_entries in Hm. cbn [fst snd] in Hm.
  apply list_elem_of_fmap in Hm as (e & -> & He).
  destruct (PDQIndex2._idx_to_entries self !! id) as [es|] eqn:Hes;
    [|by apply elem_of_nil in He].
  split; [cbn [distance]; lia|].
  exists ts, t, b, id, v, es. cbn [distance metadata]. auto 10.
Qed.

Lemma query_distances_witness :
  valid_hash h0
  /\ (forall ms,
        PDQIndex2.query
          (PDQIndex2.run (PDQIndex2.empty 31) [Add h0 1; Add h0_r90 2]) h0
        = Ok ms ->
        forall m, m ∈ ms ->
          true_distance_match
            (PDQIndex2.run (PDQIndex2.empty 31) [Add h0 1; Add h0_r90 2]) h0 m)
  /\ (PDQIndex2.ids_in_range
        (PDQIndex2.run (PDQIndex2.empty 31) [Add h0 1; Add h0_r90 2]) ->
      exists ms,
        PDQIndex2.query
          (PDQIndex2.run (PDQIndex2.empty 31) [Add h0 1; Add h0_r90 2]) h0
        = Ok ms).
Proof.
  split.
  - exists bits_h0. vm_compute. reflexivity.
  - apply (query_distances
             (PDQIndex2.run (PDQIndex2.empty 31) [Add h0 1; Add h0_r90 2]) h0).
    exists bits_h0. vm_compute. reflexivity.
Defined.

(** C5: on a valid hash [query] returns the matches of one hit per id: no id
    gives matches twice, an id that some orientation hit gives exactly one
    match per metadata entry stored at it ([PDQIndex2]: the entries of
    [_idx_to_entries[id]]; [PDQIndex]: the one entry of
    [local_id_to_entry[id]]), and each of these matches carries the distance
    of the first orientation, in the order of the eight transforms, that hit
    the id. *)
Theorem query_dedups {M : Type} (self2 : PDQIndex2.t M) (self1 : PDQIndex.t M)
    (hash : string) :
  valid_hash hash ->
  PDQIndex2_query_dedups self2 hash /\ PDQIndex_query_dedups self1 hash.
Proof.
  intros Hvalid. split; (split; [|by (apply PDQIndex2_query_Ok
                                      || apply PDQIndex_query_Ok)]).
  - intros ms (ts & per & Hts & Hper & ->)%PDQIndex2_query_inv.
    exists ts, per. split; [exact Hts|]. split; [exact Hper|].
    apply first_hits_matches_concat.
  - intros ms (ts & results & per & Hts & Hres & Hper & ->)%PDQIndex_query_inv.
    exists ts, results, per. split; [exact Hts|]. split; [exact Hres|].
    split; [exact Hper|].
    replace (hit_key <$> concat per)
      with (concat ((fun r : list (nat * bits * Z) => hit_key <$> r) <$> per)).
    + apply first_hits_matches_concat.
    + clear. induction per as [|r per IH]; [reflexivity|].
      cbn [fmap list_fmap concat]. rewrite fmap_app. f_equal. exact IH.
Qed.

Lemma query_dedups_witness :
  valid_hash h0
  /\ PDQIndex2_query_dedups
       (PDQIndex2.run (PDQIndex2.empty 31) [Add h0 1; Add h0 2; Add h0_r90 3]) h0
  /\ PDQIndex_query_dedups
       (PDQIndex.run (PDQIndex.empty PDQIndex.PDQIndex)
          [Add h0 1; Add h0 2; Add h0_r90 3]) h0.
Proof.
  split.
  - exists bits_h0. vm_compute. reflexivity.
  - apply (query_dedups
             (PDQIndex2.run (PDQIndex2.empty 31)
                [Add h0 1; Add h0 2; Add h0_r90 3])
             (PDQIndex.run (PDQIndex.empty PDQIndex.PDQIndex)
                [Add h0 1; Add h0 2; Add h0_r90 3]) h0).
    exists bits_h0. vm_compute. reflexivity.
Defined.

(** ** Malformed hashes and thresholds *)

Lemma invalid_hash_Err (h : string) :
  ~ valid_hash h -> hex_to_binary_str h = Err MalformedHash.
Proof.
  intros Hinv. destruct (hex_to_binary_str h) as [b|e] eqn:Hb.
  - destruct Hinv. by exists b.
  - by rewrite (hex_to_binary_str_Err _ _ Hb).
Qed.

Lemma transformed_invalid (h : string) :
  ~ valid_hash h -> PDQIndex2._get_transformed_hashes h = Err MalformedHash.
Proof.
  intros Hb%invalid_hash_Err. unfold PDQIndex2._get_transformed_hashes.
  by rewrite Hb.
Qed.

Section Rejects.
Context {M : Type}.
Implicit Types (self : PDQIndex2.t M).

Lemma invariant_deduper_valid self (h : string) :
  PDQIndex2.invariant self -> ~ valid_hash h ->
  PDQIndex2._deduper self !! h = None.
Proof.
  intros (_ & _ & Hded & _) Hinv.
  destruct (PDQIndex2._deduper self !! h) as [i|] eqn:Hh; [|reflexivity].
  destruct (Hded _ _ Hh) as (b & Hb & _). destruct Hinv. by exists b.
Qed.

Lemma add_invalid self (h : string) (m : M) :
  PDQIndex2.invariant self -> ~ valid_hash h ->
  PDQIndex2.add self h m = (self, Err MalformedHash).
Proof.
  intros Hself Hinv. unfold PDQIndex2.add. cbn [PDQIndex2.add_all].
  rewrite (invariant_deduper_valid _ _ Hself Hinv), faiss_add_one.
  by rewrite (invalid_hash_Err _ Hinv).
Qed.

Lemma invariant_rejects self (h : string) :
  PDQIndex2.invariant self -> ~ valid_hash h -> PDQIndex2_rejects self h.
Proof.
  intros Hself Hinv. split; [|split].
  - intros m. by apply add_invalid.
  - unfold PDQIndex2.query. by rewrite (transformed_invalid _ Hinv).
  - intros pre m post self' Hpre. rewrite add_all_app, Hpre, add_all_cons.
    rewrite add_invalid; [reflexivity| |exact Hinv].
    replace self' with (PDQIndex2.add_all self pre).1 by (by rewrite Hpre).
    by apply add_all_invariant.
Qed.

(** On a state that satisfies the invariant, [add_all] raises nothing but
    [MalformedHash]. *)
Lemma add_all_Err self entries self' e :
  PDQIndex2.invariant self ->
  PDQIndex2.add_all self entries = (self', Err e) -> e = MalformedHash.
Proof.
  revert self. induction entries as [|[h i] rest IH]; intros self Hself.
  - intros [=].
  - rewrite add_all_cons.
    pose proof (add_invariant self h i Hself) as Hnext.
    destruct (PDQIndex2.add self h i) as [self1 [[]|e1]] eqn:Hadd;
      [by apply IH|].
    intros [= <- <-]. revert Hadd. unfold PDQIndex2.add.
    cbn [PDQIndex2.add_all].
    destruct (PDQIndex2._deduper self !! h) as [k|] eqn:Hh.
    + destruct Hself as (_ & Hlen & Hded & _).
      destruct (Hded _ _ Hh) as (b & _ & Hk%lookup_lt_Some).
      unfold PDQIndex2.append_at.
      destruct (getitem_lt (PDQIndex2._idx_to_entries self) k ltac:(lia))
        as (es & _ & ->).
      rewrite bind_Ok. intros [=].
    + rewrite faiss_add_one.
      destruct (hex_to_binary_str h) as [b|e] eqn:Hb; [intros [=]|].
      intros [= _ <-]. by apply hex_to_binary_str_Err in Hb.
Qed.

End Rejects.

(** C4, as the code has it: on a [PDQIndex2] built from empty and a string
    [h] that is not a valid hash, [add] and [query] raise [MalformedHash] and
    leave the state unchanged, and [add_all] on a batch with [h] at some
    position raises [MalformedHash] after the pairs before [h] took effect;
    [PDQIndex.query] raises [MalformedHash] as well. *)
Theorem malformed_hash_rejected {M : Type} (threshold : Z) (cs : list (call M))
    (self1 : PDQIndex.t M) (h : string) :
  ~ valid_hash h ->
  PDQIndex2_rejects (PDQIndex2.run (PDQIndex2.empty threshold) cs) h
  /\ PDQIndex.query self1 h = Err MalformedHash.
Proof.
  intros Hinv. split.
  - apply invariant_rejects; [|exact Hinv]. apply run_invariant, empty_invariant.
  - unfold PDQIndex.query.
    by rewrite transformed_hashes_eq, (transformed_invalid _ Hinv).
Qed.

Lemma invalid_zz : ~ valid_hash "zz".
Proof. intros [b Hb]. vm_compute in Hb. discriminate. Qed.

Lemma malformed_hash_rejected_witness :
  ~ valid_hash "zz"
  /\ PDQIndex2_rejects (PDQIndex2.run (PDQIndex2.empty 31) [Add h0 1]) "zz"
  /\ PDQIndex.query (PDQIndex.run (PDQIndex.empty PDQIndex.PDQIndex) [Add h0 1])
       "zz" = Err MalformedHash.
Proof.
  split.
  - intros [b Hb]. vm_compute in Hb. discriminate.
  - apply (malformed_hash_rejected 31 [Add h0 1]
             (PDQIndex.run (PDQIndex.empty PDQIndex.PDQIndex) [Add h0 1]) "zz").
    intros [b Hb]. vm_compute in Hb. discriminate.
Defined.

(** C4 fails as stated: the batch [(h0, 1); ("zz", 2)] on an empty
    [PDQIndex2] raises [MalformedHash] at its second pair, and the first pair
    has taken effect: [len()] went from 0 to 1. *)
Lemma add_all_partial_effect :
  ~ valid_hash "zz"
  /\ (PDQIndex2.add_all (PDQIndex2.empty 31) [(h0, 1); ("zz", 2)]).2
     = Err MalformedHash
  /\ PDQIndex2.__len__ (PDQIndex2.empty (M:=nat) 31) = 0
  /\ PDQIndex2.__len__
       (PDQIndex2.add_all (PDQIndex2.empty 31) [(h0, 1); ("zz", 2)]).1 = 1.
Proof.
  split; [exact invalid_zz|]. repeat split; vm_compute; reflexivity.
Qed.

(** C6, as the code has it: the constructor of [PDQIndex2] takes every
    integer threshold: without entries it returns the empty index with that
    threshold, and with entries it returns an index with that threshold or
    raises [MalformedHash]; it never raises [InvalidThreshold]. *)
Theorem init_any_threshold {M : Type} (entries : list (string * M)) (threshold : Z) :
  PDQIndex2.__init__ (M:=M) [] threshold = Ok (PDQIndex2.empty threshold)
  /\ PDQIndex2.threshold (PDQIndex2.empty (M:=M) threshold) = threshold
  /\ ((exists self, PDQIndex2.__init__ entries threshold = Ok self
         /\ PDQIndex2.threshold self = threshold)
      \/ PDQIndex2.__init__ entries threshold = Err MalformedHash).
Proof.
  split; [reflexivity|]. split; [reflexivity|].
  unfold PDQIndex2.__init__. fold (PDQIndex2.empty (M:=M) threshold).
  pose proof (add_all_threshold (PDQIndex2.empty threshold) entries) as Hthr.
  destruct (PDQIndex2.add_all _ entries) as [self' [[]|e]] eqn:Hadd.
  - left. exists self'. split; [reflexivity | exact Hthr].
  - right. apply add_all_Err in Hadd as ->; [reflexivity|].
    apply empty_invariant.
Qed.

(** C6 fails as stated: the threshold 300 is outside [0, 256], and the
    constructor returns an index. *)
Lemma init_threshold_300 :
  (256 < 300)%Z
  /\ PDQIndex2.__init__ (M:=nat) [] 300 = Ok (PDQIndex2.empty 300)
  /\ PDQIndex2.__init__ (M:=nat) [] 300 <> Err InvalidThreshold.
Proof. split; [lia|]. split; [reflexivity | discriminate]. Qed.

(** ** The same hash added several times *)

Section Same_hash.
Context {M : Type}.
Variables (h : string) (b : bits).
Hypothesis h_bits : hex_to_binary_str h = Ok b.

Lemma PDQIndex2_run_cons (self : PDQIndex2.t M) (c : call M) cs :
  PDQIndex2.run self (c :: cs) = PDQIndex2.run (PDQIndex2.step self c) cs.
Proof. reflexivity. Qed.

Lemma PDQIndex_run_cons (self : PDQIndex.t M) (c : call M) cs :
  PDQIndex.run self (c :: cs) = PDQIndex.run (PDQIndex.step self c) cs.
Proof. reflexivity. Qed.

(** [PDQIndex2]: the first [add] makes id 0, the later ones append to its
    entry list. *)
Lemma PDQIndex2_add_first (threshold : Z) (m : M) :
  PDQIndex2.add (PDQIndex2.empty threshold) h m
  = (PDQIndex2.Build threshold {| _PDQFaissIndex.faiss_index := [b] |}
       (<[h := 0]> ∅) [[m]], Ok tt).
Proof.
  unfold PDQIndex2.add, PDQIndex2.empty. cbn [PDQIndex2.add_all]. proj_simpl.
  rewrite lookup_empty, faiss_add_one, h_bits. proj_simpl.
  rewrite map_size_empty. reflexivity.
Qed.

Lemma PDQIndex2_add_again (threshold : Z) (d : gmap string nat)
    (es : list M) (m : M) :
  d !! h = Some 0 ->
  PDQIndex2.add
    (PDQIndex2.Build threshold {| _PDQFaissIndex.faiss_index := [b] |} d [es])
    h m
  = (PDQIndex2.Build threshold {| _PDQFaissIndex.faiss_index := [b] |} d
       [es ++ [m]], Ok tt).
Proof.
  intros Hd. unfold PDQIndex2.add. cbn [PDQIndex2.add_all]. proj_simpl.
  rewrite Hd. reflexivity.
Qed.

Lemma PDQIndex2_run_again (threshold : Z) (d : gmap string nat)
    (es ms : list M) :
  d !! h = Some 0 ->
  PDQIndex2.run
    (PDQIndex2.Build threshold {| _PDQFaissIndex.faiss_index := [b] |} d [es])
    (Add h <$> ms)
  = PDQIndex2.Build threshold {| _PDQFaissIndex.faiss_index := [b] |} d
      [es ++ ms].
Proof.
  intros Hd. revert es. induction ms as [|m ms IH]; intros es.
  - by rewrite app_nil_r.
  - rewrite fmap_cons, PDQIndex2_run_cons. cbn [PDQIndex2.step].
    rewrite (PDQIndex2_add_again _ _ _ _ Hd). cbn [fst].
    rewrite IH, <- app_assoc. reflexivity.
Qed.

Lemma PDQIndex2_run_same (threshold : Z) (m : M) (ms : list M) :
  PDQIndex2.run (PDQIndex2.empty threshold) (Add h <$> m :: ms)
  = PDQIndex2.Build threshold {| _PDQFaissIndex.faiss_index := [b] |}
      (<[h := 0]> ∅) [m :: ms].
Proof.
  rewrite fmap_cons, PDQIndex2_run_cons. cbn [PDQIndex2.step].
  rewrite PDQIndex2_add_first. cbn [fst].
  rewrite PDQIndex2_run_again by apply lookup_insert_eq. reflexivity.
Qed.

(** [PDQIndex]: every [add] makes a new id with the same vector. *)
Lemma PDQIndex_add_same (self : PDQIndex.t M) (m : M) :
  PDQIndex.add self h m
  = (PDQIndex.Build (PDQIndex.class self)
       (PDQIndex.local_id_to_entry self ++ [(h, m)])
       (PDQIndex.index self ++ [(length (PDQIndex.local_id_to_entry self), b)]),
     Ok tt).
Proof.
  unfold PDQIndex.add, PDQIndex.add_all. proj_simpl.
  rewrite decide_True by (rewrite List.length_app; simpl; lia).
  rewrite drop_app_length, List.length_app.
  replace (_ + _ - _) with 1 by (simpl; lia).
  unfold PDQHashIndex.add, convert_pdq_strings_to_ndarray.
  cbn [fmap list_fmap fst for_append]. rewrite h_bits. reflexivity.
Qed.

Lemma PDQIndex_run_same (self : PDQIndex.t M) (ms : list M) :
  PDQIndex.run self (Add h <$> ms)
  = PDQIndex.Build (PDQIndex.class self)
      (PDQIndex.local_id_to_entry self ++ ((fun m => (h, m)) <$> ms))
      (PDQIndex.index self
       ++ ((fun i => (i, b))
             <$> seq (length (PDQIndex.local_id_to_entry self)) (length ms))).
Proof.
  revert self. induction ms as [|m ms IH]; intros self.
  - cbn. rewrite !app_nil_r. by destruct self.
  - rewrite fmap_cons, PDQIndex_run_cons. cbn [PDQIndex.step].
    rewrite PDQIndex_add_same. cbn [fst]. rewrite IH. proj_simpl.
    rewrite List.length_app, <- !app_assoc. cbn [length seq fmap list_fmap app].
    by rewrite Nat.add_1_r.
Qed.

End Same_hash.

Section Same_hash_query.
Context {M : Type}.
Variables (h : string) (b : bits).
Hypothesis h_bits : hex_to_binary_str h = Ok b.









End Same_hash_query.




(** * More of the code *)

(** ** The transforms on every valid hash *)

Lemma transformed_images (hash : string) (b : bits) :
  hex_to_binary_str hash = Ok b ->
  exists ts, PDQIndex2._get_transformed_hashes hash = Ok ts
    /\ ts !! 0 = Some hash
    /\ Forall2 (fun t img => hex_to_binary_str t = Ok img) ts (computed_images b).
Proof.
  intros Hb. eexists. split; [exact (transformed_shape _ _ Hb)|].
  split; [reflexivity|]. unfold computed_images. cbn [map].
  repeat first [apply Forall2_nil_2 | apply Forall2_cons; split];
    first [exact Hb | apply hex_to_binary_str_of_hex, remap_length].
Qed.

(** X1: on every valid hash [_get_transformed_hashes] (of both classes)
    returns eight valid hashes; the first is the input string itself, the
    next five have the bits of the 90, 180 and 270 degree rotation, the
    horizontal and the vertical flip of the input grid, and the last two have
    the bits of the 270 and the 90 degree rotation again. *)
Theorem transformed_hashes_images (hash : string) (b : bits) :
  hex_to_binary_str hash = Ok b ->
  exists ts,
    PDQIndex2._get_transformed_hashes hash = Ok ts
    /\ PDQIndex._get_transformed_hashes hash = Ok ts
    /\ length ts = 8
    /\ ts !! 0 = Some hash
    /\ Forall2 (fun t img => hex_to_binary_str t = Ok img) ts (computed_images b)
    /\ ts !! 6 = ts !! 3 /\ ts !! 7 = ts !! 1.
Proof.
  intros Hb. destruct (transformed_images _ _ Hb) as (ts & Hts & H0 & Himg).
  exists ts. split; [exact Hts|]. split; [by rewrite transformed_hashes_eq|].
  split; [by rewrite (Forall2_length _ _ _ Himg)|]. split; [exact H0|].
  split; [exact Himg|].
  rewrite (transformed_shape _ _ Hb) in Hts. injection Hts as <-.
  split; reflexivity.
Qed.

Lemma transformed_hashes_images_witness :
  hex_to_binary_str h0 = Ok bits_h0
  /\ exists ts,
       PDQIndex2._get_transformed_hashes h0 = Ok ts
       /\ PDQIndex._get_transformed_hashes h0 = Ok ts
       /\ length ts = 8
       /\ ts !! 0 = Some h0
       /\ Forall2 (fun t img => hex_to_binary_str t = Ok img) ts
            (computed_images bits_h0)
       /\ ts !! 6 = ts !! 3 /\ ts !! 7 = ts !! 1.
Proof.
  split.
  - vm_compute. reflexivity.
  - apply (transformed_hashes_images h0 bits_h0). vm_compute. reflexivity.
Defined.

Lemma remap_tabulate_eq (F G : bits -> bits) :
  (forall f : nat -> bool,
     F (map f (seq 0 BITS_IN_PDQ)) = G (map f (seq 0 BITS_IN_PDQ))) ->
  forall b, length b = BITS_IN_PDQ -> F b = G b.
Proof. intros H b Hb%bits_tabulate. rewrite Hb. apply H. Qed.

(** Which grid image undoes which. *)
Lemma images_undo (b : bits) :
  length b = BITS_IN_PDQ ->
  forall k k', (k, k') ∈ undo_index ->
    exists img, computed_images b !! k = Some img
      /\ computed_images img !! k' = Some b.
Proof.
  intros Hb k k' Hk. unfold undo_index in Hk.
  repeat (apply elem_of_cons in Hk as [[= -> ->]|Hk]);
    [..|by apply elem_of_nil in Hk];
    (eexists; split; [reflexivity|]); cbn [computed_images lookup list_lookup];
    f_equal; revert b Hb.
  - apply (remap_tabulate_eq (fun b => spec_R270 (spec_R90 b)) (fun b => b)).
    intros f. cbv. reflexivity.
  - apply (remap_tabulate_eq (fun b => spec_R180 (spec_R180 b)) (fun b => b)).
    intros f. cbv. reflexivity.
  - apply (remap_tabulate_eq (fun b => spec_R90 (spec_R270 b)) (fun b => b)).
    intros f. cbv. reflexivity.
  - apply (remap_tabulate_eq (fun b => spec_FlipH (spec_FlipH b)) (fun b => b)).
    intros f. cbv. reflexivity.
  - apply (remap_tabulate_eq (fun b => spec_FlipV (spec_FlipV b)) (fun b => b)).
    intros f. cbv. reflexivity.
Qed.

Lemma transformed_lookup (hash : string) (b : bits) :
  hex_to_binary_str hash = Ok b ->
  exists ts, PDQIndex2._get_transformed_hashes hash = Ok ts
    /\ forall k img, 0 < k -> computed_images b !! k = Some img ->
         ts !! k = Some (binary_str_to_hex img).
Proof.
  intros Hb. eexists. split; [exact (transformed_shape _ _ Hb)|].
  intros k img Hk. destruct k as [|k]; [lia|]. unfold computed_images.
  do 7 (destruct k as [|k];
        [cbn [lookup list_lookup map]; intros [= <-]; reflexivity|]).
  cbn [lookup list_lookup]. discriminate.
Qed.

Lemma computed_images_length (b img : bits) (k : nat) :
  length b = BITS_IN_PDQ -> computed_images b !! k = Some img ->
  length img = BITS_IN_PDQ.
Proof.
  intros Hb. unfold computed_images.
  destruct k as [|k]; [by intros [= <-]|].
  do 7 (destruct k as [|k];
        [cbn [lookup list_lookup]; intros [= <-]; apply remap_length|]).
  cbn [lookup list_lookup]. discriminate.
Qed.

(** X2: the five transforms that are implemented undo each other: on a
    valid hash, transforming output 1 (rotate 90) and taking output 3 (rotate
    270), or the other way round, or taking twice output 2 (rotate 180), 4
    (horizontal flip) or 5 (vertical flip), gives back the bits of the
    input, printed as a hash. *)
Theorem transforms_undo (hash : string) (b : bits) :
  hex_to_binary_str hash = Ok b ->
  exists ts,
    PDQIndex2._get_transformed_hashes hash = Ok ts
    /\ forall k k', (k, k') ∈ undo_index ->
         exists t ts',
           ts !! k = Some t
           /\ PDQIndex2._get_transformed_hashes t = Ok ts'
           /\ ts' !! k' = Some (binary_str_to_hex b).
Proof.
  intros Hb. pose proof (hex_to_binary_str_length _ _ Hb) as Hlen.
  destruct (transformed_lookup _ _ Hb) as (ts & Hts & Hlookup).
  exists ts. split; [exact Hts|]. intros k k' Hk.
  destruct (images_undo b Hlen k k' Hk) as (img & Himg & Hback).
  assert (0 < k /\ 0 < k') as [Hk0 Hk0'].
  { unfold undo_index in Hk.
    repeat (apply elem_of_cons in Hk as [[= -> ->]|Hk]);
      [..|by apply elem_of_nil in Hk]; lia. }
  pose proof (computed_images_length _ _ _ Hlen Himg) as Hilen.
  destruct (transformed_lookup _ _ (hex_to_binary_str_of_hex img Hilen))
    as (ts' & Hts' & Hlookup').
  exists (binary_str_to_hex img), ts'.
  split; [by apply Hlookup|]. split; [exact Hts'|]. by apply Hlookup'.
Qed.

Lemma transforms_undo_witness :
  hex_to_binary_str h0 = Ok bits_h0
  /\ exists ts,
       PDQIndex2._get_transformed_hashes h0 = Ok ts
       /\ forall k k', (k, k') ∈ undo_index ->
            exists t ts',
              ts !! k = Some t
              /\ PDQIndex2._get_transformed_hashes t = Ok ts'
              /\ ts' !! k' = Some (binary_str_to_hex bits_h0).
Proof.
  split.
  - vm_compute. reflexivity.
  - apply (transforms_undo h0 bits_h0). vm_compute. reflexivity.
Defined.

(** ** The manual transforms of the tests *)

Lemma manually_rotate_90_image (hash : string) (b : bits) :
  hex_to_binary_str hash = Ok b ->
  test_pdq_transformations.manually_rotate_90 hash
  = Ok (binary_str_to_hex (spec_R90 b)).
Proof.
  intros H. unfold test_pdq_transformations.manually_rotate_90.
  rewrite H, bind_Ok.
  assert (Hb := bits_tabulate b (hex_to_binary_str_length _ _ H)).
  clear H. set (f := fun i => nth i b false) in Hb. clearbody f.
  subst b. cbv -[binary_str_to_hex]. reflexivity.
Qed.

Lemma manually_rotate_180_image (hash : string) (b : bits) :
  hex_to_binary_str hash = Ok b ->
  test_pdq_transformations.manually_rotate_180 hash
  = Ok (binary_str_to_hex (spec_R180 b)).
Proof.
  intros H. unfold test_pdq_transformations.manually_rotate_180.
  rewrite H, bind_Ok.
  assert (Hb := bits_tabulate b (hex_to_binary_str_length _ _ H)).
  clear H. set (f := fun i => nth i b false) in Hb. clearbody f.
  subst b. cbv -[binary_str_to_hex]. reflexivity.
Qed.

Lemma manually_flip_horizontal_image (hash : string) (b : bits) :
  hex_to_binary_str hash = Ok b ->
  test_pdq_transformations.manually_flip_horizontal hash
  = Ok (binary_str_to_hex (spec_FlipH b)).
Proof.
  intros H. unfold test_pdq_transformations.manually_flip_horizontal.
  rewrite H, bind_Ok.
  assert (Hb := bits_tabulate b (hex_to_binary_str_length _ _ H)).
  clear H. set (f := fun i => nth i b false) in Hb. clearbody f.
  subst b. cbv -[binary_str_to_hex]. reflexivity.
Qed.

(** X3: what [test_get_transformed_hashes] asserts on its one test hash
    holds for every valid hash: [manually_rotate_90], [manually_rotate_180]
    and [manually_flip_horizontal] return the outputs 1, 2 and 4 of
    [_get_transformed_hashes] (of both classes), and output 0 is the hash
    itself. *)
Theorem manual_transforms_in_transformed_hashes (hash : string) (b : bits) :
  hex_to_binary_str hash = Ok b ->
  exists ts t90 t180 tflip,
    PDQIndex2._get_transformed_hashes hash = Ok ts
    /\ PDQIndex._get_transformed_hashes hash = Ok ts
    /\ length ts = 8
    /\ ts !! 0 = Some hash
    /\ test_pdq_transformations.manually_rotate_90 hash = Ok t90
    /\ ts !! 1 = Some t90
    /\ test_pdq_transformations.manually_rotate_180 hash = Ok t180
    /\ ts !! 2 = Some t180
    /\ test_pdq_transformations.manually_flip_horizontal hash = Ok tflip
    /\ ts !! 4 = Some tflip.
Proof.
  intros Hb. do 4 eexists.
  split; [exact (transformed_shape _ _ Hb)|].
  split; [rewrite transformed_hashes_eq; exact (transformed_shape _ _ Hb)|].
  split; [reflexivity|]. split; [reflexivity|].
  split; [exact (manually_rotate_90_image _ _ Hb)|]. split; [reflexivity|].
  split; [exact (manually_rotate_180_image _ _ Hb)|]. split; [reflexivity|].
  split; [exact (manually_flip_horizontal_image _ _ Hb)|]. reflexivity.
Qed.

Lemma manual_transforms_in_transformed_hashes_witness :
  hex_to_binary_str h0 = Ok bits_h0
  /\ exists ts t90 t180 tflip,
       PDQIndex2._get_transformed_hashes h0 = Ok ts
       /\ PDQIndex._get_transformed_hashes h0 = Ok ts
       /\ length ts = 8
       /\ ts !! 0 = Some h0
       /\ test_pdq_transformations.manually_rotate_90 h0 = Ok t90
       /\ ts !! 1 = Some t90
       /\ test_pdq_transformations.manually_rotate_180 h0 = Ok t180
       /\ ts !! 2 = Some t180
       /\ test_pdq_transformations.manually_flip_horizontal h0 = Ok tflip
       /\ ts !! 4 = Some tflip.
Proof.
  split.
  - vm_compute. reflexivity.
  - apply (manual_transforms_in_transformed_hashes h0 bits_h0).
    vm_compute. reflexivity.
Defined.

(** ** Hamming distance under the transforms *)

Lemma remap_as_cells (src : nat -> nat -> nat * nat) (b : bits) :
  remap src b = map (fun k => nth k b false) (remap_cells src).
Proof.
  unfold remap, remap_cells. induction (seq 0 16) as [|a l IH] at 2 4;
    [reflexivity|].
  cbn [flat_map]. rewrite map_app, IH, map_map. reflexivity.
Qed.

Lemma hamming_cells (x y : bits) (ks : list nat) :
  hamming (map (fun k => nth k x false) ks) (map (fun k => nth k y false) ks)
  = sum_list_with
      (fun k => if xorb (nth k x false) (nth k y false) then 1 else 0) ks.
Proof. induction ks as [|k ks IH]; [reflexivity|]. cbn. by rewrite IH. Qed.

(** A transform that reads every cell once keeps the Hamming distance. *)
Lemma hamming_remap (src : nat -> nat -> nat * nat) (x y : bits) :
  remap_cells src ≡ₚ seq 0 BITS_IN_PDQ ->
  length x = BITS_IN_PDQ -> length y = BITS_IN_PDQ ->
  hamming (remap src x) (remap src y) = hamming x y.
Proof.
  intros Hperm Hx Hy. rewrite !remap_as_cells, hamming_cells, Hperm.
  rewrite <- hamming_cells. by rewrite <- !bits_tabulate.
Qed.

Lemma computed_images_hamming (x y imgx imgy : bits) (k : nat) :
  length x = BITS_IN_PDQ -> length y = BITS_IN_PDQ ->
  computed_images x !! k = Some imgx -> computed_images y !! k = Some imgy ->
  hamming imgx imgy = hamming x y.
Proof.
  intros Hx Hy. unfold computed_images.
  destruct k as [|k]; [by intros [= <-] [= <-]|].
  do 7 (destruct k as [|k];
        [cbn [lookup list_lookup]; intros [= <-] [= <-];
         apply hamming_remap; [|done|done];
         apply (bool_decide_unpack _); vm_compute; exact I|]).
  cbn [lookup list_lookup]. discriminate.
Qed.

(** X4: the transforms keep the Hamming distance: for two valid hashes,
    the outputs of [_get_transformed_hashes] at the same position are as far
    apart as the two inputs. *)
Theorem transforms_keep_hamming (h1 h2 : string) (b1 b2 : bits) :
  hex_to_binary_str h1 = Ok b1 -> hex_to_binary_str h2 = Ok b2 ->
  exists ts1 ts2,
    PDQIndex2._get_transformed_hashes h1 = Ok ts1
    /\ PDQIndex2._get_transformed_hashes h2 = Ok ts2
    /\ forall k t1 t2, ts1 !! k = Some t1 -> ts2 !! k = Some t2 ->
         exists c1 c2,
           hex_to_binary_str t1 = Ok c1 /\ hex_to_binary_str t2 = Ok c2
           /\ hamming c1 c2 = hamming b1 b2.
Proof.
  intros Hb1 Hb2.
  destruct (transformed_images _ _ Hb1) as (ts1 & Hts1 & _ & Himg1).
  destruct (transformed_images _ _ Hb2) as (ts2 & Hts2 & _ & Himg2).
  exists ts1, ts2. split; [exact Hts1|]. split; [exact Hts2|].
  intros k t1 t2 Ht1 Ht2.
  destruct (Forall2_lookup_l _ _ _ _ _ Himg1 Ht1) as (c1 & Hc1 & Hbits1).
  destruct (Forall2_lookup_l _ _ _ _ _ Himg2 Ht2) as (c2 & Hc2 & Hbits2).
  exists c1, c2. split; [exact Hbits1|]. split; [exact Hbits2|].
  eapply computed_images_hamming; [| |exact Hc1|exact Hc2];
    eapply hex_to_binary_str_length; eassumption.
Qed.

Lemma transforms_keep_hamming_witness :
  hex_to_binary_str h0 = Ok bits_h0
  /\ hex_to_binary_str h0_r90 = Ok (spec_R90 bits_h0)
  /\ exists ts1 ts2,
       PDQIndex2._get_transformed_hashes h0 = Ok ts1
       /\ PDQIndex2._get_transformed_hashes h0_r90 = Ok ts2
       /\ forall k t1 t2, ts1 !! k = Some t1 -> ts2 !! k = Some t2 ->
            exists c1 c2,
              hex_to_binary_str t1 = Ok c1 /\ hex_to_binary_str t2 = Ok c2
              /\ hamming c1 c2 = hamming bits_h0 (spec_R90 bits_h0).
Proof.
  split; [vm_compute; reflexivity|]. split; [vm_compute; reflexivity|].
  apply (transforms_keep_hamming h0 h0_r90 bits_h0 (spec_R90 bits_h0));
    vm_compute; reflexivity.
Defined.

(** ** [PDQIndex2]: what stays, and what [add] does *)

Section PDQIndex2_more.
Context {M : Type}.
Implicit Types (self : PDQIndex2.t M).

Lemma extends_refl self : PDQIndex2_extends self self.
Proof.
  repeat split; try done. intros i es Hes. exists []. by rewrite app_nil_r.
Qed.

Lemma extends_trans self1 self2 self3 :
  PDQIndex2_extends self1 self2 -> PDQIndex2_extends self2 self3 ->
  PDQIndex2_extends self1 self3.
Proof.
  intros (Ht & Hl & Hd & Hv & He) (Ht' & Hl' & Hd' & Hv' & He').
  split; [congruence|]. split; [lia|]. split; [eauto|]. split; [eauto|].
  intros i es Hes. destruct (He _ _ Hes) as (more & Hmore).
  destruct (He' _ _ Hmore) as (more' & Hmore'). exists (more ++ more').
  by rewrite app_assoc.
Qed.

Lemma add_extends self (h : string) (m : M) :
  PDQIndex2_extends self (PDQIndex2.add self h m).1.
Proof.
  unfold PDQIndex2.add. cbn [PDQIndex2.add_all].
  destruct (PDQIndex2._deduper self !! h) as [k|] eqn:Hh.
  - unfold PDQIndex2.append_at, getitem.
    destruct (PDQIndex2._idx_to_entries self !! k) as [es|] eqn:Hk;
      [|apply extends_refl].
    rewrite bind_Ok. unfold PDQIndex2_extends, PDQIndex2.__len__. proj_simpl.
    split; [done|]. split; [by rewrite length_insert|].
    split; [done|]. split; [done|].
    intros i es' Hes'. destruct (decide (i = k)) as [->|Hne].
    + exists [m]. rewrite list_lookup_insert_eq by (by eapply lookup_lt_Some).
      congruence.
    + exists []. by rewrite list_lookup_insert_ne, app_nil_r.
  - rewrite faiss_add_one.
    destruct (hex_to_binary_str h) as [b|e]; [|apply extends_refl].
    unfold PDQIndex2_extends, PDQIndex2.__len__. proj_simpl.
    split; [done|]. split; [rewrite List.length_app; lia|].
    split; [|split].
    + intros h' i Hi. rewrite lookup_insert_ne; [done|congruence].
    + intros i v Hv. by apply lookup_app_l_Some.
    + intros i es Hes. exists []. rewrite app_nil_r.
      by apply lookup_app_l_Some.
Qed.

Lemma add_all_extends self (entries : list (string * M)) :
  PDQIndex2_extends self (PDQIndex2.add_all self entries).1.
Proof.
  revert self. induction entries as [|[h i] rest IH]; intros self;
    [apply extends_refl|].
  rewrite add_all_cons. pose proof (add_extends self h i) as H1.
  destruct (PDQIndex2.add self h i) as [self' [[]|e]]; [|exact H1].
  eapply extends_trans; [exact H1 | apply IH].
Qed.

Lemma run_extends self (cs : list (call M)) :
  PDQIndex2_extends self (PDQIndex2.run self cs).
Proof.
  revert self. induction cs as [|c cs IH]; intros self; [apply extends_refl|].
  rewrite PDQIndex2_run_cons. eapply extends_trans; [|apply IH].
  destruct c; [apply add_extends | apply add_all_extends].
Qed.

Lemma extends_holds self self' (h : string) (m : M) :
  PDQIndex2_extends self self' -> PDQIndex2_holds self h m ->
  PDQIndex2_holds self' h m.
Proof.
  intros (_ & _ & Hd & _ & He) (i & es & Hi & Hes & Hm).
  destruct (He _ _ Hes) as (more & Hmore). exists i, (es ++ more).
  split; [by apply Hd|]. split; [exact Hmore|]. apply elem_of_app. by left.
Qed.

(** [add] of a valid hash on a state that satisfies the invariant. *)
Lemma add_valid self (h : string) (m : M) (b : bits) :
  PDQIndex2.invariant self -> hex_to_binary_str h = Ok b ->
  exists self', PDQIndex2.add self h m = (self', Ok tt)
    /\ PDQIndex2_added self self' h m /\ PDQIndex2_holds self' h m.
Proof.
  intros (Hsize & Hlen & Hded & Hne) Hb.
  unfold PDQIndex2.add, PDQIndex2_added, PDQIndex2_holds, PDQIndex2.__len__.
  cbn [PDQIndex2.add_all].
  destruct (PDQIndex2._deduper self !! h) as [k|] eqn:Hh.
  - destruct (Hded _ _ Hh) as (b' & _ & Hk%lookup_lt_Some).
    unfold PDQIndex2.append_at.
    destruct (getitem_lt (PDQIndex2._idx_to_entries self) k ltac:(lia))
      as (es & Hes & ->).
    rewrite bind_Ok. eexists. split; [reflexivity|]. proj_simpl.
    assert (<[k:=es ++ [m]]> (PDQIndex2._idx_to_entries self) !! k
            = Some (es ++ [m])) as Hnew
      by (apply list_lookup_insert_eq; lia).
    split.
    + split; [by rewrite length_insert|]. split; [done|]. split; [done|].
      exists es. by split.
    + exists k, (es ++ [m]). split; [done|]. split; [done|].
      apply elem_of_app. right. apply list_elem_of_here.
  - rewrite faiss_add_one, Hb. eexists. split; [reflexivity|]. proj_simpl.
    assert ((PDQIndex2._idx_to_entries self ++ [[m]])
              !! length (PDQIndex2._idx_to_entries self) = Some [m]) as Hnew
      by (by rewrite lookup_app_r, Nat.sub_diag).
    rewrite Hsize, lookup_insert_eq. split.
    + split; [rewrite List.length_app; simpl; lia|]. by split.
    + exists (length (PDQIndex2._idx_to_entries self)), [m].
      split; [done|]. split; [done|]. apply list_elem_of_here.
Qed.

End PDQIndex2_more.

(** X5: a [PDQIndex2] only grows: after any calls of [add] and [add_all]
    on any index, calls that raise included, the threshold is the same,
    [len()] is not smaller, every hash has the id it had, the backend has the
    vector it had at every position, and every entry list has the payloads it
    had, in order, as a prefix. *)
Theorem PDQIndex2_only_grows {M : Type} (self : PDQIndex2.t M)
    (cs : list (call M)) :
  PDQIndex2_extends self (PDQIndex2.run self cs).
Proof.
  revert self. induction cs as [|c cs IH]; intros self; [apply extends_refl|].
  rewrite PDQIndex2_run_cons. eapply extends_trans; [|apply IH].
  destruct c as [h m|entries]; cbn [PDQIndex2.step].
  - apply add_extends.
  - apply add_all_extends.
Qed.

(** X6: on a [PDQIndex2] built from empty, [add(h, m)] with a valid hash
    never raises; a hash that is not in the index yet gets the id [len()]
    and the entry list [[m]], and [len()] grows by one; a hash that is in
    the index keeps its id, [len()], the dedup table and the backend stay as
    they are, and [m] is appended to the entry list of the id.  The invariant
    holds afterwards. *)
Theorem add_valid_hash {M : Type} (threshold : Z) (cs : list (call M))
    (h : string) (m : M) (b : bits) :
  hex_to_binary_str h = Ok b ->
  exists self',
    PDQIndex2.add (PDQIndex2.run (PDQIndex2.empty threshold) cs) h m
    = (self', Ok tt)
    /\ PDQIndex2_added (PDQIndex2.run (PDQIndex2.empty threshold) cs) self' h m
    /\ PDQIndex2_holds self' h m
    /\ PDQIndex2.invariant self'.
Proof.
  intros Hb.
  assert (PDQIndex2.invariant (PDQIndex2.run (PDQIndex2.empty threshold) cs))
    as Hinv by apply run_invariant, empty_invariant.
  destruct (add_valid _ h m b Hinv Hb) as (self' & Hadd & Hadded & Hholds).
  exists self'. split; [exact Hadd|]. split; [exact Hadded|].
  split; [exact Hholds|].
  replace self' with (PDQIndex2.add (PDQIndex2.run (PDQIndex2.empty threshold) cs) h m).1
    by (by rewrite Hadd).
  by apply add_invariant.
Qed.

Lemma add_valid_hash_witness :
  hex_to_binary_str h0 = Ok bits_h0
  /\ exists self',
       PDQIndex2.add (PDQIndex2.run (PDQIndex2.empty 31) [Add h0_r90 1]) h0 2
       = (self', Ok tt)
       /\ PDQIndex2_added (PDQIndex2.run (PDQIndex2.empty 31) [Add h0_r90 1])
            self' h0 2
       /\ PDQIndex2_holds self' h0 2
       /\ PDQIndex2.invariant self'.
Proof.
  split.
  - vm_compute. reflexivity.
  - apply (add_valid_hash 31 [Add h0_r90 1] h0 2 bits_h0).
    vm_compute. reflexivity.
Defined.

(** ** [PDQIndex2.query]: what is stored is found *)

Section PDQIndex2_complete.
Context {M : Type}.
Implicit Types (self : PDQIndex2.t M).

Lemma transformed_Ok_valid (q : string) ts :
  PDQIndex2._get_transformed_hashes q = Ok ts -> valid_hash q.
Proof.
  unfold PDQIndex2._get_transformed_hashes.
  destruct (hex_to_binary_str q) as [b|e] eqn:Hb; [by exists b|discriminate].
Qed.

Lemma elem_of_flat_map {A B : Type} (f : A -> list B) (l : list A) (y : B) :
  y ∈ flat_map f l <-> exists x, x ∈ l /\ y ∈ f x.
Proof.
  rewrite list_elem_of_In, in_flat_map. split.
  - intros (x & Hx & Hy). exists x. by rewrite !list_elem_of_In.
  - intros (x & Hx & Hy). exists x. by rewrite <- !list_elem_of_In.
Qed.

Lemma holds_vector self (h : string) (m : M) (b : bits) :
  PDQIndex2.invariant self -> PDQIndex2_holds self h m ->
  hex_to_binary_str h = Ok b ->
  exists i es,
    PDQIndex2._deduper self !! h = Some i
    /\ _PDQFaissIndex.faiss_index (PDQIndex2._index self) !! i = Some b
    /\ PDQIndex2._idx_to_entries self !! i = Some es /\ m ∈ es.
Proof.
  intros (_ & _ & Hded & _) (i & es & Hi & Hes & Hm) Hb.
  destruct (Hded _ _ Hi) as (b' & Hb' & Hv). exists i, es.
  repeat split; try done. congruence.
Qed.

(** A stored hash within the threshold of one orientation of the query
    gives a match for each of its payloads. *)
Lemma PDQIndex2_query_finds self (q h : string) (m : M) ts (t : string)
    (bt bh : bits) :
  PDQIndex2.invariant self -> PDQIndex2_holds self h m ->
  hex_to_binary_str h = Ok bh ->
  PDQIndex2._get_transformed_hashes q = Ok ts -> t ∈ ts ->
  hex_to_binary_str t = Ok bt ->
  (Z.of_nat (hamming bt bh) <= PDQIndex2.threshold self)%Z ->
  exists ms d, PDQIndex2.query self q = Ok ms
    /\ PDQIndexMatch d m ∈ ms /\ (0 <= d <= PDQIndex2.threshold self)%Z.
Proof.
  intros Hinv Hholds Hbh Hts Ht Hbt Hnear.
  destruct (holds_vector _ _ _ _ Hinv Hholds Hbh) as (i & es & _ & Hv & Hes & Hm).
  destruct (PDQIndex2_query_Ok self q) as [ms Hq];
    [by eapply transformed_Ok_valid | by apply invariant_ids_in_range|].
  exists ms.
  destruct (PDQIndex2_query_inv _ _ _ Hq) as (ts' & per & Hts' & Hper & ->).
  rewrite Hts in Hts'. injection Hts' as <-.
  apply list_elem_of_lookup in Ht as (k & Hk).
  destruct (Forall2_lookup_l _ _ _ _ _ Hper Hk) as (r & Hr & Hsearch).
  rewrite (search_single _ _ _ _ Hbt) in Hsearch. injection Hsearch as <-.
  assert (i ∈ (first_hits ∅ (concat per)).*1) as Hi.
  { apply first_hits_complete; [|set_solver].
    apply list_elem_of_fmap. exists (i, Z.of_nat (hamming bt bh)).
    split; [reflexivity|]. apply elem_of_concat. eexists.
    split; [|apply list_elem_of_lookup; eauto].
    apply elem_of_range_hits. exists bh. repeat split; [done|lia]. }
  apply list_elem_of_fmap in Hi as ([i' d] & -> & Hhit). cbn [fst] in *.
  exists d. split; [exact Hq|]. split.
  - apply elem_of_flat_map. exists (i', d). split; [exact Hhit|].
    unfold matches_of_entries. cbn [fst snd]. rewrite Hes.
    by apply list_elem_of_fmap_2.
  - apply first_hits_subset, elem_of_concat in Hhit as (r' & Hin & Hr').
    destruct (Forall2_elem_of_r _ _ _ _ Hper Hr') as (t' & _ & Hsearch').
    destruct (hex_to_binary_str t') as [b'|e] eqn:Hb';
      [|by rewrite (search_single_Err _ _ _ _ Hb') in Hsearch'].
    rewrite (search_single _ _ _ _ Hb') in Hsearch'. injection Hsearch' as <-.
    apply elem_of_range_hits in Hin as (v & _ & -> & Hd). lia.
Qed.

(** The query hash itself is the first orientation: a stored copy of it is
    reported at distance 0. *)
Lemma PDQIndex2_query_self self (h : string) (m : M) (b : bits) :
  PDQIndex2.invariant self -> PDQIndex2_holds self h m ->
  hex_to_binary_str h = Ok b -> (0 <= PDQIndex2.threshold self)%Z ->
  exists ms, PDQIndex2.query self h = Ok ms /\ PDQIndexMatch 0 m ∈ ms.
Proof.
  intros Hinv Hholds Hb Hthr.
  destruct (holds_vector _ _ _ _ Hinv Hholds Hb) as (i & es & _ & Hv & Hes & Hm).
  destruct (PDQIndex2_query_Ok self h) as [ms Hq];
    [by exists b | by apply invariant_ids_in_range|].
  exists ms. split; [exact Hq|].
  destruct (PDQIndex2_query_inv _ _ _ Hq) as (ts & per & Hts & Hper & ->).
  rewrite (transformed_shape _ _ Hb) in Hts. injection Hts as <-.
  apply Forall2_cons_inv_l in Hper as (r0 & per' & Hr0 & _ & ->).
  rewrite (search_single _ _ _ _ Hb) in Hr0. injection Hr0 as <-.
  cbn [concat]. rewrite first_hits_app, first_hits_NoDup_id;
    [|apply range_hits_NoDup|set_solver].
  apply elem_of_flat_map. exists (i, 0%Z). split.
  - apply elem_of_app. left. apply elem_of_range_hits. exists b.
    rewrite hamming_refl. repeat split; [done|lia].
  - unfold matches_of_entries. cbn [fst snd]. rewrite Hes.
    by apply list_elem_of_fmap_2.
Qed.

Lemma PDQIndex2_run_app self (cs cs' : list (call M)) :
  PDQIndex2.run self (cs ++ cs') = PDQIndex2.run (PDQIndex2.run self cs) cs'.
Proof. apply foldl_app. Qed.

End PDQIndex2_complete.

(** X7: self-match on [PDQIndex2]: with a threshold of at least 0, once
    [add(h, m)] was called with a valid hash, whatever was called before and
    is called after, [query(h)] returns a match with the payload [m] at
    distance 0. *)
Theorem query_self_match {M : Type} (threshold : Z) (cs cs' : list (call M))
    (h : string) (m : M) (b : bits) :
  hex_to_binary_str h = Ok b -> (0 <= threshold)%Z ->
  exists ms,
    PDQIndex2.query
      (PDQIndex2.run (PDQIndex2.empty threshold) (cs ++ Add h m :: cs')) h
    = Ok ms
    /\ PDQIndexMatch 0 m ∈ ms.
Proof.
  intros Hb Hthr.
  apply (PDQIndex2_query_self _ h m b); [| |exact Hb|].
  - apply run_invariant, empty_invariant.
  - rewrite PDQIndex2_run_app, PDQIndex2_run_cons.
    eapply extends_holds; [apply run_extends|]. cbn [PDQIndex2.step].
    destruct (add_valid (PDQIndex2.run (PDQIndex2.empty threshold) cs) h m b)
      as (self' & -> & _ & Hholds); [|exact Hb|exact Hholds].
    apply run_invariant, empty_invariant.
  - by rewrite run_threshold.
Qed.

Lemma query_self_match_witness :
  hex_to_binary_str h0 = Ok bits_h0 /\ (0 <= 31)%Z
  /\ exists ms,
       PDQIndex2.query
         (PDQIndex2.run (PDQIndex2.empty 31)
            ([Add h0_r90 1] ++ Add h0 2 :: [Add h0_r90 3])) h0
       = Ok ms
       /\ PDQIndexMatch 0 2 ∈ ms.
Proof.
  split; [vm_compute; reflexivity|]. split; [lia|].
  apply (query_self_match 31 [Add h0_r90 1] [Add h0_r90 3] h0 2 bits_h0).
  - vm_compute. reflexivity.
  - lia.
Defined.

(** X8: [PDQIndex2.query] misses nothing: on an index built from empty, if
    the payload [m] is stored under a hash that is within the threshold, in
    Hamming distance, of one of the transformed hashes of the query, then
    [query] returns a match with the payload [m], at a distance between 0 and
    the threshold. *)
Theorem query_finds_stored {M : Type} (threshold : Z) (cs : list (call M))
    (q h : string) (m : M) (ts : list string) (t : string) (bt bh : bits) :
  PDQIndex2_holds (PDQIndex2.run (PDQIndex2.empty threshold) cs) h m ->
  hex_to_binary_str h = Ok bh ->
  PDQIndex2._get_transformed_hashes q = Ok ts -> t ∈ ts ->
  hex_to_binary_str t = Ok bt ->
  (Z.of_nat (hamming bt bh) <= threshold)%Z ->
  exists ms d,
    PDQIndex2.query (PDQIndex2.run (PDQIndex2.empty threshold) cs) q = Ok ms
    /\ PDQIndexMatch d m ∈ ms /\ (0 <= d <= threshold)%Z.
Proof.
  intros Hholds Hbh Hts Ht Hbt Hnear.
  destruct (PDQIndex2_query_finds
              (PDQIndex2.run (PDQIndex2.empty threshold) cs) q h m ts t bt bh)
    as (ms & d & Hq & Hm & Hd); try done.
  - apply run_invariant, empty_invariant.
  - by rewrite run_threshold.
  - exists ms, d. rewrite run_threshold in Hd. auto.
Qed.

Lemma query_finds_stored_witness :
  PDQIndex2_holds (PDQIndex2.run (PDQIndex2.empty 31) [Add h0 1]) h0 1
  /\ hex_to_binary_str h0 = Ok bits_h0
  /\ PDQIndex2._get_transformed_hashes h0_r90 = Ok h0_r90_transformed
  /\ h0 ∈ h0_r90_transformed
  /\ (Z.of_nat (hamming bits_h0 bits_h0) <= 31)%Z
  /\ exists ms d,
       PDQIndex2.query (PDQIndex2.run (PDQIndex2.empty 31) [Add h0 1]) h0_r90
       = Ok ms
       /\ PDQIndexMatch d 1 ∈ ms /\ (0 <= d <= 31)%Z.
Proof.
  assert (PDQIndex2_holds (PDQIndex2.run (PDQIndex2.empty 31) [Add h0 1]) h0 1)
    as Hholds.
  { exists 0, [1]. split; [vm_compute; reflexivity|].
    split; [vm_compute; reflexivity|].
    apply (bool_decide_unpack _). vm_compute. exact I. }
  assert (h0 ∈ h0_r90_transformed) as Hin
    by (apply (bool_decide_unpack _); vm_compute; exact I).
  assert (Z.of_nat (hamming bits_h0 bits_h0) <= 31)%Z as Hnear
    by (rewrite hamming_refl; lia).
  split; [exact Hholds|]. split; [vm_compute; reflexivity|].
  split; [vm_compute; reflexivity|]. split; [exact Hin|].
  split; [exact Hnear|].
  apply (query_finds_stored 31 [Add h0 1] h0_r90 h0 1 h0_r90_transformed h0
           bits_h0 bits_h0 Hholds); [vm_compute; reflexivity| |exact Hin| |exact Hnear];
    vm_compute; reflexivity.
Defined.

(** ** [PDQIndex]: the backend agrees with the entry list *)

Section PDQIndex_more.
Context {M : Type}.
Implicit Types (self : PDQIndex.t M) (entries : list (string * M)).

Lemma for_append_Forall2 {A B : Type} (body : A -> result B) (xs : list A) ys :
  for_append body xs = Ok ys -> Forall2 (fun x y => body x = Ok y) xs ys.
Proof.
  revert ys. induction xs as [|x xs IH]; intros ys; simpl.
  - intros [= <-]. constructor.
  - intros (y & Hy & (ys' & Hys' & [= <-])%bind_Ok_inv)%bind_Ok_inv.
    constructor; [exact Hy | by apply IH].
Qed.

Lemma elem_of_zip_seq {B : Type} (start n : nat) (vs : list B) (id : nat) (v : B) :
  (id, v) ∈ zip (seq start n) vs ->
  exists j, id = start + j /\ j < n /\ vs !! j = Some v.
Proof.
  intros (j & Hj)%list_elem_of_lookup.
  apply lookup_zip_with_Some in Hj as (id' & v' & [= <- <-] & Hid & Hv).
  apply lookup_seq in Hid as [-> Hlt]. eauto.
Qed.

Lemma PDQIndex_add_all_invariant self entries :
  PDQIndex_invariant self ->
  PDQIndex_invariant (PDQIndex.add_all self entries).1.
Proof.
  intros [Hnd Hids]. unfold PDQIndex.add_all. proj_simpl.
  assert (forall id v, (id, v) ∈ PDQIndex.index self ->
            exists h m,
              (PDQIndex.local_id_to_entry self ++ entries) !! id = Some (h, m)
              /\ hex_to_binary_str h = Ok v) as Hold.
  { intros id v (h & m & Hl & Hb)%Hids. exists h, m.
    split; [by apply lookup_app_l_Some | exact Hb]. }
  case_decide as Hgrow; [|by split].
  unfold PDQHashIndex.add.
  destruct (convert_pdq_strings_to_ndarray _) as [vectors|e] eqn:Hconv;
    [|by split].
  apply for_append_Forall2 in Hconv. rewrite drop_app_length in Hconv.
  unfold PDQIndex_invariant. proj_simpl. split.
  - rewrite fmap_app. apply NoDup_app. split; [exact Hnd|]. split.
    + intros id ([id' v] & -> & (h & m & Hl%lookup_lt_Some & _)%Hids)%list_elem_of_fmap.
      intros ([id'' v'] & Heq & (j & -> & _)%elem_of_zip_seq)%list_elem_of_fmap.
      cbn [fst] in *. lia.
    + eapply NoDup_fmap_fst.
      * intros id v1 v2 (j1 & -> & _ & H1)%elem_of_zip_seq
                 (j2 & Heq & _ & H2)%elem_of_zip_seq.
        assert (j1 = j2) as -> by lia. congruence.
      * apply NoDup_alt. intros i j [id v].
        intros (? & ? & [= <- <-] & Hi%lookup_seq & _)%lookup_zip_with_Some.
        intros (? & ? & [= Heq _] & Hj%lookup_seq & _)%lookup_zip_with_Some.
        lia.
  - intros id v [Hin|Hin]%elem_of_app; [by apply Hold|].
    apply elem_of_zip_seq in Hin as (j & -> & _ & Hv).
    destruct (Forall2_lookup_r _ _ _ _ _ Hconv Hv) as (h & Hh & Hb).
    rewrite list_lookup_fmap in Hh.
    destruct (entries !! j) as [[h' m]|] eqn:Hj; [|discriminate].
    injection Hh as <-. exists h', m. split; [|exact Hb].
    by rewrite lookup_app_r, Nat.add_comm, Nat.add_sub by lia.
Qed.

Lemma PDQIndex_run_invariant self (cs : list (call M)) :
  PDQIndex_invariant self -> PDQIndex_invariant (PDQIndex.run self cs).
Proof.
  revert self. induction cs as [|c cs IH]; intros self Hinv; [exact Hinv|].
  apply IH. destruct c; apply PDQIndex_add_all_invariant, Hinv.
Qed.

Lemma PDQIndex_empty_invariant (c : PDQIndex.cls) :
  PDQIndex_invariant (PDQIndex.empty (M:=M) c).
Proof.
  split; [constructor|]. intros id v Hin. by apply elem_of_nil in Hin.
Qed.

Lemma PDQIndex_invariant_ids_in_range self :
  PDQIndex_invariant self -> PDQIndex.ids_in_range self.
Proof.
  intros [_ Hids] id v (h & m & Hl%lookup_lt_Some & _)%Hids. exact Hl.
Qed.

End PDQIndex_more.

(** X9: after any calls of [add] and [add_all] on a [PDQIndex] created
    empty, calls that raise included, the backend agrees with
    [local_id_to_entry]: no id is in the backend twice, and the vector under
    an id is the one of the hash at that position of [local_id_to_entry]. *)
Theorem PDQIndex_backend_agrees {M : Type} (c : PDQIndex.cls)
    (cs : list (call M)) :
  PDQIndex_invariant (PDQIndex.run (PDQIndex.empty c) cs).
Proof.
  assert (PDQIndex_invariant (PDQIndex.empty (M:=M) c)) as Hinv
    by apply PDQIndex_empty_invariant.
  revert Hinv. generalize (PDQIndex.empty (M:=M) c).
  induction cs as [|call cs IH]; intros self Hinv; [exact Hinv|].
  apply IH. destruct call as [h m|entries]; cbn [PDQIndex.step].
  - apply PDQIndex_add_all_invariant, Hinv.
  - apply PDQIndex_add_all_invariant, Hinv.
Qed.

(** ** [PDQIndex.query]: sound and complete on the backend *)

Section PDQIndex_sound_complete.
Context {M : Type}.
Implicit Types (self : PDQIndex.t M).

Lemma PDQIndex_query_hits self (hash : string) ms :
  PDQIndex.ids_in_range self ->
  PDQIndex.query self hash = Ok ms ->
  exists ts,
    PDQIndex._get_transformed_hashes hash = Ok ts
    /\ Forall valid_hash ts
    /\ ms = flat_map (match_of_entry (PDQIndex.local_id_to_entry self))
              (first_hits ∅
                 (hit_key <$> concat
                    ((fun t => PDQHashIndex.hits_of (PDQIndex.index self)
                                 (hash_bits t)
                                 (PDQIndex.get_match_threshold (PDQIndex.class self)))
                       <$> ts))).
Proof.
  intros Hrange Hq.
  destruct (PDQIndex_query_inv _ _ _ Hq)
    as (ts & results & per & Hts & Hres & Hper & ->).
  exists ts. split; [exact Hts|].
  destruct (transformed_valid hash) as (ts2 & Hts2 & _ & Hvalid).
  { apply (transformed_Ok_valid hash ts). by rewrite <- transformed_hashes_eq. }
  rewrite transformed_hashes_eq, Hts2 in Hts. injection Hts as ->.
  split; [exact Hvalid|].
  destruct (search_with_distance_valid (PDQIndex.index self) ts
              (PDQIndex.get_match_threshold (PDQIndex.class self)) Hvalid)
    as (results' & Hres' & Hlookup).
  rewrite Hres in Hres'. injection Hres' as <-.
  do 4 f_equal. apply list_eq. intros k. rewrite list_lookup_fmap.
  destruct (ts !! k) as [t|] eqn:Hk.
  - destruct (Forall2_lookup_l _ _ _ _ _ Hper Hk) as (r & -> & Hr).
    rewrite Hlookup in Hr by (apply list_elem_of_lookup; eauto).
    by injection Hr as <-.
  - apply lookup_ge_None. rewrite <- (Forall2_length _ _ _ Hper).
    by apply lookup_ge_None.
Qed.

Lemma PDQIndex_query_sound self (hash : string) ms (m : IndexMatch M) :
  PDQIndex_invariant self ->
  PDQIndex.query self hash = Ok ms -> m ∈ ms ->
  PDQIndex_true_match self hash m.
Proof.
  intros Hinv Hq Hm.
  destruct (PDQIndex_query_hits _ _ _ (PDQIndex_invariant_ids_in_range _ Hinv) Hq)
    as (ts & Hts & Hvalid & ->).
  apply elem_of_flat_map in Hm as ([id d] & Hhit & Hm).
  apply first_hits_subset, list_elem_of_fmap in Hhit
    as ([[id' v] d'] & [= -> ->] & (r & Hin & Hr)%elem_of_concat).
  apply list_elem_of_fmap in Hr as (t & -> & Ht).
  apply elem_of_hits_of in Hin as (Hin & -> & Hd).
  destruct Hinv as [_ Hids]. destruct (Hids _ _ Hin) as (h & m' & Hl & Hb).
  unfold match_of_entry in Hm. cbn [fst snd] in Hm. rewrite Hl in Hm.
  apply list_elem_of_singleton in Hm as ->. cbn [snd].
  rewrite Forall_forall in Hvalid.
  split; [cbn [distance]; lia|].
  exists ts, t, (hash_bits t), id', h, v. cbn [distance metadata].
  split; [exact Hts|]. split; [exact Ht|].
  split; [by apply hash_bits_Ok, Hvalid|]. auto.
Qed.

Lemma PDQIndex_query_finds self (q h : string) (m : M) ts (t : string)
    (bt bh : bits) :
  PDQIndex_invariant self -> PDQIndex_holds self h m ->
  hex_to_binary_str h = Ok bh ->
  PDQIndex._get_transformed_hashes q = Ok ts -> t ∈ ts ->
  hex_to_binary_str t = Ok bt ->
  (Z.of_nat (hamming bt bh)
   <= PDQIndex.get_match_threshold (PDQIndex.class self))%Z ->
  exists ms d, PDQIndex.query self q = Ok ms
    /\ PDQIndexMatch d m ∈ ms
    /\ (0 <= d <= PDQIndex.get_match_threshold (PDQIndex.class self))%Z.
Proof.
  intros Hinv (id & v & Hin & Hl) Hbh Hts Ht Hbt Hnear.
  pose proof (PDQIndex_invariant_ids_in_range _ Hinv) as Hrange.
  destruct (PDQIndex_query_Ok self q) as [ms Hq]; [|exact Hrange|].
  { apply (transformed_Ok_valid q ts). by rewrite <- transformed_hashes_eq. }
  exists ms.
  destruct (PDQIndex_query_hits _ _ _ Hrange Hq) as (ts' & Hts' & _ & ->).
  rewrite Hts in Hts'. injection Hts' as <-.
  assert (v = bh) as ->.
  { destruct Hinv as [_ Hids]. destruct (Hids _ _ Hin) as (h' & m' & Hl' & Hb').
    congruence. }
  set (per := (fun t => PDQHashIndex.hits_of _ _ _) <$> ts).
  assert (id ∈ (first_hits ∅ (hit_key <$> concat per)).*1) as Hi.
  { apply first_hits_complete; [|set_solver].
    apply list_elem_of_fmap. exists (id, Z.of_nat (hamming bt bh)).
    split; [reflexivity|]. apply list_elem_of_fmap.
    exists (id, bh, Z.of_nat (hamming bt bh)). split; [reflexivity|].
    apply elem_of_concat. eexists. split; [|by apply (list_elem_of_fmap_2 _ ts t)].
    cbn beta. unfold hash_bits. rewrite Hbt. by apply elem_of_hits_of. }
  apply list_elem_of_fmap in Hi as ([i' d] & -> & Hhit). cbn [fst] in *.
  exists d. split; [exact Hq|]. split.
  - apply elem_of_flat_map. exists (i', d). split; [exact Hhit|].
    unfold match_of_entry. cbn [fst snd]. rewrite Hl. apply list_elem_of_here.
  - apply first_hits_subset, list_elem_of_fmap in Hhit
      as ([[id' v'] d'] & [= -> ->] & (r & Hin' & Hr)%elem_of_concat).
    apply list_elem_of_fmap in Hr as (t' & -> & _).
    apply elem_of_hits_of in Hin' as (_ & -> & Hd). lia.
Qed.

End PDQIndex_sound_complete.

(** X10: every match that [PDQIndex.query] (or [PDQFlatIndex.query])
    returns on an index built from empty carries the payload of an entry of
    [local_id_to_entry] whose hash is within the match threshold of the
    class (31 or 52) of one of the transformed query hashes, and its distance
    is the Hamming distance between the two; [query] returns on every valid
    hash. *)
Theorem PDQIndex_query_matches_true {M : Type} (c : PDQIndex.cls)
    (cs : list (call M)) (hash : string) :
  valid_hash hash ->
  exists ms,
    PDQIndex.query (PDQIndex.run (PDQIndex.empty c) cs) hash = Ok ms
    /\ forall m, m ∈ ms ->
         PDQIndex_true_match (PDQIndex.run (PDQIndex.empty c) cs) hash m.
Proof.
  intros Hvalid.
  assert (PDQIndex_invariant (PDQIndex.run (PDQIndex.empty c) cs)) as Hinv
    by apply PDQIndex_run_invariant, PDQIndex_empty_invariant.
  destruct (PDQIndex_query_Ok (PDQIndex.run (PDQIndex.empty c) cs) hash)
    as [ms Hq]; [exact Hvalid|by apply PDQIndex_invariant_ids_in_range|].
  exists ms. split; [exact Hq|]. intros m Hm.
  by apply (PDQIndex_query_sound _ hash ms).
Qed.

Lemma PDQIndex_query_matches_true_witness :
  valid_hash h0
  /\ exists ms,
       PDQIndex.query
         (PDQIndex.run (PDQIndex.empty PDQIndex.PDQFlatIndex)
            [Add h0 1; AddAll [(h0_r90, 2); (h0, 3)]]) h0 = Ok ms
       /\ forall m, m ∈ ms ->
            PDQIndex_true_match
              (PDQIndex.run (PDQIndex.empty PDQIndex.PDQFlatIndex)
                 [Add h0 1; AddAll [(h0_r90, 2); (h0, 3)]]) h0 m.
Proof.
  split.
  - exists bits_h0. vm_compute. reflexivity.
  - apply (PDQIndex_query_matches_true PDQIndex.PDQFlatIndex
             [Add h0 1; AddAll [(h0_r90, 2); (h0, 3)]] h0).
    exists bits_h0. vm_compute. reflexivity.
Defined.

Lemma PDQIndex_add_all_class {M : Type} (self : PDQIndex.t M) entries :
  PDQIndex.class (PDQIndex.add_all self entries).1 = PDQIndex.class self.
Proof.
  unfold PDQIndex.add_all. proj_simpl. case_decide; [|reflexivity].
  destruct (PDQHashIndex.add _ _ _) as [index' [[]|e]]; reflexivity.
Qed.

Lemma PDQIndex_run_class {M : Type} (self : PDQIndex.t M) (cs : list (call M)) :
  PDQIndex.class (PDQIndex.run self cs) = PDQIndex.class self.
Proof.
  revert self. induction cs as [|c cs IH]; intros self; [reflexivity|].
  rewrite PDQIndex_run_cons, IH. destruct c; apply PDQIndex_add_all_class.
Qed.

(** X11: [PDQIndex.query] misses nothing that the backend has: on an index
    built from empty, if the entry [(h, m)] is in [local_id_to_entry] at an
    id of the backend and [h] is within the match threshold of the class of
    one of the transformed hashes of the query, then [query] returns a match
    with the payload [m], at a distance between 0 and the threshold. *)
Theorem PDQIndex_query_finds_stored {M : Type} (c : PDQIndex.cls)
    (cs : list (call M)) (q h : string) (m : M) (ts : list string)
    (t : string) (bt bh : bits) :
  PDQIndex_holds (PDQIndex.run (PDQIndex.empty c) cs) h m ->
  hex_to_binary_str h = Ok bh ->
  PDQIndex._get_transformed_hashes q = Ok ts -> t ∈ ts ->
  hex_to_binary_str t = Ok bt ->
  (Z.of_nat (hamming bt bh) <= PDQIndex.get_match_threshold c)%Z ->
  exists ms d,
    PDQIndex.query (PDQIndex.run (PDQIndex.empty c) cs) q = Ok ms
    /\ PDQIndexMatch d m ∈ ms
    /\ (0 <= d <= PDQIndex.get_match_threshold c)%Z.
Proof.
  intros Hholds Hbh Hts Ht Hbt Hnear.
  pose proof (PDQIndex_run_class (PDQIndex.empty (M:=M) c) cs) as Hc.
  cbn [PDQIndex.empty PDQIndex.class] in Hc.
  destruct (PDQIndex_query_finds
              (PDQIndex.run (PDQIndex.empty c) cs) q h m ts t bt bh)
    as (ms & d & Hq & Hm & Hd); try done.
  - apply PDQIndex_run_invariant, PDQIndex_empty_invariant.
  - by rewrite Hc.
  - exists ms, d. rewrite Hc in Hd. auto.
Qed.

Lemma PDQIndex_query_finds_stored_witness :
  PDQIndex_holds (PDQIndex.run (PDQIndex.empty PDQIndex.PDQIndex) [Add h0 1]) h0 1
  /\ hex_to_binary_str h0 = Ok bits_h0
  /\ PDQIndex._get_transformed_hashes h0_r90 = Ok h0_r90_transformed
  /\ h0 ∈ h0_r90_transformed
  /\ (Z.of_nat (hamming bits_h0 bits_h0)
      <= PDQIndex.get_match_threshold PDQIndex.PDQIndex)%Z
  /\ exists ms d,
       PDQIndex.query
         (PDQIndex.run (PDQIndex.empty PDQIndex.PDQIndex) [Add h0 1]) h0_r90
       = Ok ms
       /\ PDQIndexMatch d 1 ∈ ms
       /\ (0 <= d <= PDQIndex.get_match_threshold PDQIndex.PDQIndex)%Z.
Proof.
  assert (PDQIndex_holds
            (PDQIndex.run (PDQIndex.empty PDQIndex.PDQIndex) [Add h0 1]) h0 1)
    as Hholds.
  { exists 0, bits_h0.
    split; [apply (bool_decide_unpack _); vm_compute; exact I|].
    vm_compute. reflexivity. }
  assert (h0 ∈ h0_r90_transformed) as Hin
    by (apply (bool_decide_unpack _); vm_compute; exact I).
  assert (Z.of_nat (hamming bits_h0 bits_h0)
          <= PDQIndex.get_match_threshold PDQIndex.PDQIndex)%Z as Hnear
    by (rewrite hamming_refl; simpl; lia).
  split; [exact Hholds|]. split; [vm_compute; reflexivity|].
  split; [vm_compute; reflexivity|]. split; [exact Hin|].
  split; [exact Hnear|].
  apply (PDQIndex_query_finds_stored PDQIndex.PDQIndex [Add h0 1] h0_r90 h0 1
           h0_r90_transformed h0 bits_h0 bits_h0 Hholds);
    [vm_compute; reflexivity| |exact Hin| |exact Hnear];
    vm_compute; reflexivity.
Defined.

(** ** One stored hash, queried by its rotations *)

Section Single_entry.
Context {M : Type}.

(** A transformed hash of an output 1 to 5 has the bits of the input. *)
Lemma undo_orientation (b img : bits) (k k' : nat) :
  length b = BITS_IN_PDQ -> (k, k') ∈ undo_index ->
  computed_images b !! k = Some img ->
  exists ts t,
    PDQIndex2._get_transformed_hashes (binary_str_to_hex img) = Ok ts
    /\ t ∈ ts /\ hex_to_binary_str t = Ok b.
Proof.
  intros Hlen Hk Himg.
  destruct (images_undo b Hlen k k' Hk) as (img' & Himg' & Hback).
  assert (img' = img) as -> by congruence.
  pose proof (computed_images_length _ _ _ Hlen Himg) as Hilen.
  destruct (transformed_images _ _ (hex_to_binary_str_of_hex img Hilen))
    as (ts & Hts & _ & Himgs).
  destruct (Forall2_lookup_r _ _ _ _ _ Himgs Hback) as (t & Ht & Hbits).
  exists ts, t. split; [exact Hts|]. split; [|exact Hbits].
  apply list_elem_of_lookup. eauto.
Qed.

Lemma single_id_hits (hits : list (nat * Z)) :
  NoDup hits.*1 -> (forall id, id ∈ hits.*1 -> id = 0) ->
  hits = [] \/ exists d, hits = [(0, d)].
Proof.
  intros Hnd Hzero. destruct hits as [|[i d] [|[i2 d2] rest]]; [by left| |].
  - right. exists d. rewrite (Hzero i); [done|]. apply list_elem_of_here.
  - exfalso. cbn [fmap list_fmap fst] in *.
    assert (i = 0) as -> by apply Hzero, list_elem_of_here.
    assert (i2 = 0) as ->
      by apply Hzero, list_elem_of_further, list_elem_of_here.
    apply NoDup_cons in Hnd as [Hnin _]. apply Hnin, list_elem_of_here.
Qed.

Lemma PDQIndex2_single_entry_query (threshold : Z) (h q : string) (m : M)
    (b bt : bits) ts (t : string) :
  hex_to_binary_str h = Ok b ->
  PDQIndex2._get_transformed_hashes q = Ok ts -> t ∈ ts ->
  hex_to_binary_str t = Ok bt ->
  (Z.of_nat (hamming bt b) <= threshold)%Z ->
  exists d,
    PDQIndex2.query (PDQIndex2.run (PDQIndex2.empty threshold) [Add h m]) q
    = Ok [PDQIndexMatch d m]
    /\ (0 <= d <= threshold)%Z.
Proof.
  intros Hb Hts Ht Hbt Hnear.
  set (self := PDQIndex2.run (PDQIndex2.empty threshold) [Add h m]).
  assert (self = PDQIndex2.Build threshold
                   {| _PDQFaissIndex.faiss_index := [b] |} (<[h := 0]> ∅) [[m]])
    as Hself.
  { subst self. exact (PDQIndex2_run_same h b Hb threshold m []). }
  assert (PDQIndex2.invariant self) as Hinv
    by apply run_invariant, empty_invariant.
  assert (PDQIndex2_holds self h m) as Hholds.
  { rewrite Hself. exists 0, [m]. proj_simpl.
    split; [apply lookup_insert_eq|]. split; [done|apply list_elem_of_here]. }
  destruct (PDQIndex2_query_finds self q h m ts t bt b)
    as (ms & d & Hq & Hm & Hd); try done.
  { by rewrite Hself. }
  exists d. rewrite Hself in Hd. split; [|exact Hd].
  rewrite Hq. f_equal.
  destruct (PDQIndex2_query_inv _ _ _ Hq) as (ts' & per & _ & Hper & ->).
  destruct (single_id_hits (first_hits ∅ (concat per))) as [Hnil|[d' Hone]].
  - apply first_hits_NoDup.
  - intros id ([id' dd] & -> & Hhit)%list_elem_of_fmap. cbn [fst].
    apply first_hits_subset, elem_of_concat in Hhit as (r & Hin & Hr).
    destruct (Forall2_elem_of_r _ _ _ _ Hper Hr) as (t' & _ & Hsearch).
    pose proof (search_hit_in_range self t' r id' dd
                  (invariant_ids_in_range _ Hinv) Hsearch Hin) as Hlt.
    rewrite Hself in Hlt. cbn in Hlt. lia.
  - rewrite Hnil in Hm. by apply elem_of_nil in Hm.
  - rewrite Hone in Hm |- *. rewrite Hself in Hm |- *.
    cbn [flat_map matches_of_entries] in Hm |- *. proj_simpl.
    cbn [lookup list_lookup default fmap list_fmap app] in Hm |- *.
    apply list_elem_of_singleton in Hm. by rewrite Hm.
Qed.

Lemma PDQIndex_single_entry_query (c : PDQIndex.cls) (h q : string) (m : M)
    (b bt : bits) ts (t : string) :
  hex_to_binary_str h = Ok b ->
  PDQIndex._get_transformed_hashes q = Ok ts -> t ∈ ts ->
  hex_to_binary_str t = Ok bt ->
  (Z.of_nat (hamming bt b) <= PDQIndex.get_match_threshold c)%Z ->
  exists d,
    PDQIndex.query (PDQIndex.run (PDQIndex.empty c) [Add h m]) q
    = Ok [PDQIndexMatch d m]
    /\ (0 <= d <= PDQIndex.get_match_threshold c)%Z.
Proof.
  intros Hb Hts Ht Hbt Hnear.
  set (self := PDQIndex.run (PDQIndex.empty c) [Add h m]).
  assert (self = PDQIndex.Build c [(h, m)] [(0, b)]) as Hself.
  { subst self. exact (PDQIndex_run_same h b Hb (PDQIndex.empty c) [m]). }
  assert (PDQIndex_invariant self) as Hinv
    by apply PDQIndex_run_invariant, PDQIndex_empty_invariant.
  assert (PDQIndex_holds self h m) as Hholds.
  { rewrite Hself. exists 0, b. proj_simpl.
    split; [apply list_elem_of_here | done]. }
  destruct (PDQIndex_query_finds self q h m ts t bt b)
    as (ms & d & Hq & Hm & Hd); try done.
  { by rewrite Hself. }
  exists d. rewrite Hself in Hd. split; [|exact Hd].
  rewrite Hq. f_equal.
  destruct (PDQIndex_query_hits _ _ _ (PDQIndex_invariant_ids_in_range _ Hinv) Hq)
    as (ts' & _ & _ & ->).
  set (hits := first_hits ∅ _) in *.
  destruct (single_id_hits hits) as [Hnil|[d' Hone]].
  - apply first_hits_NoDup.
  - intros id ([id' dd] & -> & Hhit)%list_elem_of_fmap. cbn [fst].
    apply first_hits_subset, list_elem_of_fmap in Hhit
      as ([[id'' v] d''] & [= -> ->] & (r & Hin & Hr)%elem_of_concat).
    apply list_elem_of_fmap in Hr as (t' & -> & _).
    apply elem_of_hits_of in Hin as (Hin & _). rewrite Hself in Hin.
    proj_simpl. by apply list_elem_of_singleton in Hin as [= -> _].
  - rewrite Hnil in Hm. by apply elem_of_nil in Hm.
  - rewrite Hone in Hm |- *. rewrite Hself in Hm |- *.
    cbn [flat_map match_of_entry] in Hm |- *. proj_simpl.
    cbn [lookup list_lookup snd app] in Hm |- *.
    apply list_elem_of_singleton in Hm. by rewrite Hm.
Qed.

End Single_entry.

(** X12: what [test_query_with_transformations] asserts on its one test
    hash holds for every valid hash [h] and both index classes: on the index
    constructed from the one entry [(h, m)] ([PDQIndex2] with the default
    threshold), the query with [h], with [manually_rotate_90(h)], with
    [manually_rotate_180(h)] and with [manually_flip_horizontal(h)] returns
    exactly one match, with the payload [m], at a distance within the
    threshold. *)
Theorem single_entry_found_under_rotation {M : Type} (c : PDQIndex.cls)
    (h : string) (b : bits) (m : M) :
  hex_to_binary_str h = Ok b ->
  exists self2 self1 t90 t180 tflip,
    PDQIndex2.__init__ [(h, m)] PDQ_CONFIDENT_MATCH_THRESHOLD = Ok self2
    /\ PDQIndex.__init__ c [(h, m)] = Ok self1
    /\ test_pdq_transformations.manually_rotate_90 h = Ok t90
    /\ test_pdq_transformations.manually_rotate_180 h = Ok t180
    /\ test_pdq_transformations.manually_flip_horizontal h = Ok tflip
    /\ forall q, q ∈ [h; t90; t180; tflip] ->
         (exists d, PDQIndex2.query self2 q = Ok [PDQIndexMatch d m]
            /\ (0 <= d <= PDQ_CONFIDENT_MATCH_THRESHOLD)%Z)
         /\ (exists d, PDQIndex.query self1 q = Ok [PDQIndexMatch d m]
               /\ (0 <= d <= PDQIndex.get_match_threshold c)%Z).
Proof.
  intros Hb. pose proof (hex_to_binary_str_length _ _ Hb) as Hlen.
  exists (PDQIndex2.run (PDQIndex2.empty PDQ_CONFIDENT_MATCH_THRESHOLD) [Add h m]),
         (PDQIndex.run (PDQIndex.empty c) [Add h m]).
  do 3 eexists.
  split.
  { unfold PDQIndex2.__init__. fold (PDQIndex2.empty (M:=M) PDQ_CONFIDENT_MATCH_THRESHOLD).
    cbn [PDQIndex2.run foldl PDQIndex2.step]. unfold PDQIndex2.add.
    destruct (PDQIndex2.add_all _ [(h, m)]) as [self' r] eqn:Hadd.
    change (PDQIndex2.add_all (PDQIndex2.empty PDQ_CONFIDENT_MATCH_THRESHOLD) [(h, m)])
      with (PDQIndex2.add (PDQIndex2.empty PDQ_CONFIDENT_MATCH_THRESHOLD) h m) in Hadd.
    rewrite (PDQIndex2_add_first h b Hb) in Hadd. by injection Hadd as <- <-. }
  split.
  { unfold PDQIndex.__init__. fold (PDQIndex.empty (M:=M) c).
    cbn [PDQIndex.run foldl PDQIndex.step]. unfold PDQIndex.add.
    destruct (PDQIndex.add_all _ [(h, m)]) as [self' r] eqn:Hadd.
    change (PDQIndex.add_all (PDQIndex.empty c) [(h, m)])
      with (PDQIndex.add (PDQIndex.empty c) h m) in Hadd.
    rewrite (PDQIndex_add_same h b Hb) in Hadd. by injection Hadd as <- <-. }
  split; [exact (manually_rotate_90_image _ _ Hb)|].
  split; [exact (manually_rotate_180_image _ _ Hb)|].
  split; [exact (manually_flip_horizontal_image _ _ Hb)|].
  assert (forall q ts t, PDQIndex2._get_transformed_hashes q = Ok ts -> t ∈ ts ->
            hex_to_binary_str t = Ok b ->
            (exists d,
               PDQIndex2.query
                 (PDQIndex2.run (PDQIndex2.empty PDQ_CONFIDENT_MATCH_THRESHOLD)
                    [Add h m]) q = Ok [PDQIndexMatch d m]
               /\ (0 <= d <= PDQ_CONFIDENT_MATCH_THRESHOLD)%Z)
            /\ (exists d,
                  PDQIndex.query (PDQIndex.run (PDQIndex.empty c) [Add h m]) q
                  = Ok [PDQIndexMatch d m]
                  /\ (0 <= d <= PDQIndex.get_match_threshold c)%Z)) as Hfound.
  { intros q ts t Hts Ht Hbt. split.
    - apply (PDQIndex2_single_entry_query _ h q m b b ts t); try done.
      rewrite hamming_refl. unfold PDQ_CONFIDENT_MATCH_THRESHOLD. lia.
    - apply (PDQIndex_single_entry_query c h q m b b ts t); try done.
      rewrite hamming_refl. destruct c; simpl; lia. }
  intros q Hq.
  repeat (apply elem_of_cons in Hq as [->|Hq]); [..|by apply elem_of_nil in Hq].
  - destruct (transformed_images _ _ Hb) as (ts & Hts & H0 & _).
    apply (Hfound h ts h Hts); [|exact Hb]. apply list_elem_of_lookup. eauto.
  - destruct (undo_orientation b (spec_R90 b) 1 3 Hlen) as (ts & t & Hts & Ht & Hbt);
      [apply list_elem_of_here|reflexivity|]. by apply (Hfound _ ts t).
  - destruct (undo_orientation b (spec_R180 b) 2 2 Hlen) as (ts & t & Hts & Ht & Hbt);
      [apply list_elem_of_further, list_elem_of_here|reflexivity|].
    by apply (Hfound _ ts t).
  - destruct (undo_orientation b (spec_FlipH b) 4 4 Hlen) as (ts & t & Hts & Ht & Hbt);
      [do 3 apply list_elem_of_further; apply list_elem_of_here|reflexivity|].
    by apply (Hfound _ ts t).
Qed.

Lemma single_entry_found_under_rotation_witness :
  hex_to_binary_str h0 = Ok bits_h0
  /\ exists self2 self1 t90 t180 tflip,
       PDQIndex2.__init__ [(h0, 7)] PDQ_CONFIDENT_MATCH_THRESHOLD = Ok self2
       /\ PDQIndex.__init__ PDQIndex.PDQIndex [(h0, 7)] = Ok self1
       /\ test_pdq_transformations.manually_rotate_90 h0 = Ok t90
       /\ test_pdq_transformations.manually_rotate_180 h0 = Ok t180
       /\ test_pdq_transformations.manually_flip_horizontal h0 = Ok tflip
       /\ forall q, q ∈ [h0; t90; t180; tflip] ->
            (exists d, PDQIndex2.query self2 q = Ok [PDQIndexMatch d 7]
               /\ (0 <= d <= PDQ_CONFIDENT_MATCH_THRESHOLD)%Z)
            /\ (exists d, PDQIndex.query self1 q = Ok [PDQIndexMatch d 7]
                  /\ (0 <= d
                      <= PDQIndex.get_match_threshold PDQIndex.PDQIndex)%Z).
Proof.
  split.
  - vm_compute. reflexivity.
  - apply (single_entry_found_under_rotation PDQIndex.PDQIndex h0 bits_h0 7).
    vm_compute. reflexivity.
Defined.

(** ** [_PDQFaissIndex.search] on a batch of queries *)

Section Batched_search.






End Batched_search.



(** ** [PDQIndex2]: the pairs are grouped by hash string *)

Section PDQIndex2_groups.
Context {M : Type}.
Implicit Types (self : PDQIndex2.t M) (entries : list (string * M)).

Lemma payloads_of_snoc (h h' : string) (m : M) entries :
  payloads_of h' (entries ++ [(h, m)])
  = payloads_of h' entries ++ (if decide (h = h') then [m] else []).
Proof.
  unfold payloads_of. rewrite filter_app, fmap_app. f_equal.
  rewrite filter_cons, filter_nil. cbn [fst].
  by destruct (decide (h = h')).
Qed.

Lemma payloads_of_absent (h : string) entries :
  h ∉ entries.*1 -> payloads_of h entries = [].
Proof.
  unfold payloads_of. induction entries as [|[h' m] entries IH]; [done|].
  cbn [fmap list_fmap fst]. rewrite not_elem_of_cons. intros [Hne Hnot].
  rewrite filter_cons. cbn [fst]. rewrite decide_False by done. by apply IH.
Qed.

Lemma add_grouped self done_ (h : string) (m : M) :
  PDQIndex2.invariant self -> PDQIndex2_grouped self done_ -> valid_hash h ->
  exists self', PDQIndex2.add self h m = (self', Ok tt)
    /\ PDQIndex2_grouped self' (done_ ++ [(h, m)]).
Proof.
  intros (Hsize & Hlen & Hded & Hne) (Hkeys & Hinj & Hgroups) [b Hb].
  assert (forall h' i, PDQIndex2._deduper self !! h' = Some i ->
            i < length (PDQIndex2._idx_to_entries self)) as Hlt.
  { intros h' i Hi. destruct (Hded _ _ Hi) as (b' & _ & Hk%lookup_lt_Some). lia. }
  unfold PDQIndex2.add. cbn [PDQIndex2.add_all].
  destruct (PDQIndex2._deduper self !! h) as [k|] eqn:Hh.
  - unfold PDQIndex2.append_at.
    rewrite (getitem_Ok _ _ _ (Hgroups _ _ Hh)), bind_Ok.
    eexists. split; [reflexivity|].
    unfold PDQIndex2_grouped. proj_simpl. split; [|split; [exact Hinj|]].
    + intros h'. rewrite fmap_app, elem_of_app, Hkeys. cbn [fmap list_fmap fst].
      rewrite list_elem_of_singleton. split; [|by left].
      intros [H | ->]; [exact H | by rewrite Hh].
    + intros h' i Hi. rewrite payloads_of_snoc.
      destruct (decide (h = h')) as [<- | Hneq].
      * assert (i = k) as -> by congruence.
        apply list_lookup_insert_eq. by eapply Hlt.
      * rewrite app_nil_r, list_lookup_insert_ne; [by apply Hgroups|].
        intros <-. apply Hneq. by eapply Hinj.
  - rewrite faiss_add_one, Hb. eexists. split; [reflexivity|].
    unfold PDQIndex2_grouped. proj_simpl. rewrite Hsize.
    split; [|split].
    + intros h'. rewrite fmap_app, elem_of_app, Hkeys. cbn [fmap list_fmap fst].
      rewrite list_elem_of_singleton, lookup_insert_is_Some. split.
      * intros [H | ->]; [|by left].
        destruct (decide (h = h')); [by left | right; by split].
      * intros [-> | [_ H]]; [by right | by left].
    + intros h1 h2 i. rewrite !lookup_insert_Some.
      intros [[<- <-] | [Hn1 H1]] [[<- Hi] | [Hn2 H2]]; [done| | |by eapply Hinj].
      * apply Hlt in H2. lia.
      * apply Hlt in H1. lia.
    + intros h' i. rewrite lookup_insert_Some, payloads_of_snoc.
      intros [[<- <-] | [Hneq Hi]].
      * rewrite decide_True by done.
        rewrite payloads_of_absent
          by (rewrite Hkeys, Hh; by intros [? ?]).
        by rewrite lookup_app_r, Nat.sub_diag.
      * rewrite decide_False by done. rewrite app_nil_r.
        rewrite lookup_app_l by (by eapply Hlt). by apply Hgroups.
Qed.

Lemma add_all_grouped entries self done_ :
  PDQIndex2.invariant self -> PDQIndex2_grouped self done_ ->
  Forall valid_hash entries.*1 ->
  exists self', PDQIndex2.add_all self entries = (self', Ok tt)
    /\ PDQIndex2.invariant self'
    /\ PDQIndex2_grouped self' (done_ ++ entries).
Proof.
  revert self done_. induction entries as [|[h m] rest IH];
    intros self done_ Hinv Hgr Hvalid.
  - exists self. rewrite app_nil_r. split; [reflexivity|]. by split.
  - cbn [fmap list_fmap fst] in Hvalid. apply Forall_cons in Hvalid as [Hh Hrest].
    rewrite add_all_cons.
    pose proof (add_invariant self h m Hinv) as Hinv'.
    destruct (add_grouped self done_ h m Hinv Hgr Hh) as (self1 & Hadd & Hgr1).
    rewrite Hadd in Hinv' |- *. cbn [fst] in Hinv'.
    destruct (IH self1 (done_ ++ [(h, m)]) Hinv' Hgr1 Hrest)
      as (self' & Hall & Hinv2 & Hgr2).
    exists self'. rewrite <- app_assoc in Hgr2. split; [exact Hall|]. by split.
Qed.

Lemma empty_grouped (threshold : Z) :
  PDQIndex2_grouped (PDQIndex2.empty (M:=M) threshold) [].
Proof.
  unfold PDQIndex2_grouped, PDQIndex2.empty. proj_simpl. split; [|split].
  - intros h. rewrite lookup_empty. cbn [fmap list_fmap]. split.
    + by intros ?%elem_of_nil.
    + by intros [? ?].
  - intros h h' i. by rewrite lookup_empty.
  - intros h i. by rewrite lookup_empty.
Qed.

End PDQIndex2_groups.

(** X14: the constructor of [PDQIndex2] on entries whose hashes are all
    valid returns an index that holds the pairs grouped by hash string:
    [len()] is the number of different hash strings among the entries, the
    dedup table has these strings as keys with one id each, and the entry
    list of a hash string holds the payloads paired with it, in the order of
    the entries. *)
Theorem init_groups_by_hash {M : Type} (entries : list (string * M))
    (threshold : Z) :
  Forall valid_hash entries.*1 ->
  exists self,
    PDQIndex2.__init__ entries threshold = Ok self
    /\ PDQIndex2.__len__ self = size (list_to_set entries.*1 : gset string)
    /\ PDQIndex2_grouped self entries.
Proof.
  intros Hvalid.
  destruct (add_all_grouped entries (PDQIndex2.empty threshold) []
              (empty_invariant threshold) (empty_grouped threshold) Hvalid)
    as (self & Hall & (Hsize & _) & Hgr).
  exists self. unfold PDQIndex2.__init__.
  fold (PDQIndex2.empty (M:=M) threshold). rewrite Hall.
  split; [reflexivity|]. split; [|exact Hgr].
  unfold PDQIndex2.__len__. rewrite <- Hsize, <- size_dom. f_equal.
  apply set_eq. intros h. rewrite elem_of_dom, elem_of_list_to_set.
  symmetry. apply Hgr.
Qed.

Lemma init_groups_by_hash_witness :
  Forall valid_hash [(h0, 1); (h0_r90, 2); (h0, 3)].*1
  /\ exists self,
       PDQIndex2.__init__ [(h0, 1); (h0_r90, 2); (h0, 3)] 31 = Ok self
       /\ PDQIndex2.__len__ self
          = size (list_to_set [(h0, 1); (h0_r90, 2); (h0, 3)].*1 : gset string)
       /\ PDQIndex2_grouped self [(h0, 1); (h0_r90, 2); (h0, 3)].
Proof.
  assert (Forall valid_hash [(h0, 1); (h0_r90, 2); (h0, 3)].*1) as Hvalid.
  { repeat constructor; eexists; vm_compute; reflexivity. }
  split; [exact Hvalid|].
  exact (init_groups_by_hash [(h0, 1); (h0_r90, 2); (h0, 3)] 31 Hvalid).
Defined.

(** ** [PDQIndex.add_all]: the batch is recorded before the backend sees it *)

Lemma convert_Ok_valid (hs : list string) (vectors : list bits) :
  convert_pdq_strings_to_ndarray hs = Ok vectors -> Forall valid_hash hs.
Proof.
  intros H%for_append_Forall2. induction H as [|h v hs vs Hv _ IH];
    constructor; [by exists v | exact IH].
Qed.

(** X15: [PDQIndex.add_all] (also of [PDQFlatIndex]) extends
    [local_id_to_entry] by the whole batch before it calls the backend, so
    after the call, whether it returns or raises, the entry list is the old
    one followed by the batch and [len()] has grown by the size of the batch;
    the call returns exactly when every hash of the batch is valid, and when
    it raises the backend is as it was. *)
Theorem PDQIndex_add_all_records_batch {M : Type} (self : PDQIndex.t M)
    (entries : list (string * M)) :
  PDQIndex.local_id_to_entry (PDQIndex.add_all self entries).1
  = PDQIndex.local_id_to_entry self ++ entries
  /\ PDQIndex.__len__ (PDQIndex.add_all self entries).1
     = PDQIndex.__len__ self + length entries
  /\ ((PDQIndex.add_all self entries).2 = Ok tt
      <-> Forall valid_hash entries.*1)
  /\ ((PDQIndex.add_all self entries).2 <> Ok tt ->
      PDQIndex.index (PDQIndex.add_all self entries).1 = PDQIndex.index self).
Proof.
  unfold PDQIndex.add_all, PDQIndex.__len__. proj_simpl.
  destruct (decide _) as [Hne|Heq].
  - unfold PDQHashIndex.add. rewrite drop_app_length.
    destruct (convert_pdq_strings_to_ndarray entries.*1) as [vectors|e] eqn:Hc;
      proj_simpl.
    + split; [reflexivity|]. split; [apply List.length_app|].
      split; [|done]. split; [|done].
      intros _. by eapply convert_Ok_valid.
    + split; [reflexivity|]. split; [apply List.length_app|].
      split; [|done]. split; [done|].
      intros Hvalid. by rewrite (convert_valid _ Hvalid) in Hc.
  - apply dec_stable in Heq. proj_simpl.
    split; [reflexivity|]. split; [apply List.length_app|].
    split; [|done]. split; [|done].
    intros _. rewrite List.length_app in Heq.
    destruct entries; [constructor | simpl in Heq; lia].
Qed.

(** ** An index of a hash and its rotation, queried with the hash *)

Section Two_entries.
Context {M : Type}.

Lemma Ok_inj {A : Type} (x y : A) : Ok x = Ok y -> x = y.
Proof. by intros [= ->]. Qed.

Lemma only_id_hits (k : nat) (hits : list (nat * Z)) :
  NoDup hits.*1 -> (forall id, id ∈ hits.*1 -> id = k) -> k ∈ hits.*1 ->
  exists d, hits = [(k, d)].
Proof.
  intros Hnd Hk Hin. destruct hits as [|[i d] [|[i2 d2] rest]].
  - by apply elem_of_nil in Hin.
  - exists d. rewrite (Hk i); [done|]. apply list_elem_of_here.
  - exfalso. cbn [fmap list_fmap fst] in *.
    assert (i = k) as -> by apply Hk, list_elem_of_here.
    assert (i2 = k) as ->
      by apply Hk, list_elem_of_further, list_elem_of_here.
    apply NoDup_cons in Hnd as [Hnin _]. apply Hnin, list_elem_of_here.
Qed.



Lemma PDQIndex2_init_two (threshold : Z) (h t : string) (a r : M)
    (b bt : bits) :
  hex_to_binary_str h = Ok b -> hex_to_binary_str t = Ok bt ->
  PDQIndex2.__init__ [(h, a); (t, r)] threshold
  = Ok (if decide (t = h)
        then PDQIndex2.Build threshold {| _PDQFaissIndex.faiss_index := [b] |}
               (<[h := 0]> ∅) [[a; r]]
        else PDQIndex2.Build threshold
               {| _PDQFaissIndex.faiss_index := [b; bt] |}
               (<[t := 1]> (<[h := 0]> ∅)) [[a]; [r]]).
Proof.
  intros Hb Hbt. unfold PDQIndex2.__init__. cbn [PDQIndex2.add_all]. proj_simpl.
  rewrite lookup_empty, faiss_add_one, Hb. proj_simpl.
  rewrite map_size_empty. cbn [app].
  destruct (decide (t = h)) as [-> | Hne].
  - rewrite lookup_insert_eq. reflexivity.
  - rewrite lookup_insert_ne, lookup_empty by done.
    rewrite faiss_add_one, Hbt. proj_simpl.
    rewrite map_size_insert_None, map_size_empty by apply lookup_empty.
    reflexivity.
Qed.

Lemma PDQIndex_init_two (c : PDQIndex.cls) (h t : string) (a r : M)
    (b bt : bits) :
  hex_to_binary_str h = Ok b -> hex_to_binary_str t = Ok bt ->
  PDQIndex.__init__ c [(h, a); (t, r)]
  = Ok (PDQIndex.Build c [(h, a); (t, r)] [(0, b); (1, bt)]).
Proof.
  intros Hb Hbt. unfold PDQIndex.__init__, PDQIndex.add_all. proj_simpl.
  cbn [app length]. rewrite decide_True by lia.
  unfold PDQHashIndex.add, convert_pdq_strings_to_ndarray, PDQIndex._get_empty_index.
  cbn [drop fmap list_fmap fst for_append]. rewrite Hb, bind_Ok, Hbt.
  reflexivity.
Qed.



Lemma hash_bits_of (h : string) (b : bits) :
  hex_to_binary_str h = Ok b -> hash_bits h = b.
Proof. intros Hb. unfold hash_bits. by rewrite Hb. Qed.



End Two_entries.



(** ** The query with the flipped hash *)

Section Flipped_query.
Context {M : Type}.

Lemma Forall2_elem_of_l {A B : Type} (P : A -> B -> Prop) (l : list A)
    (k : list B) (x : A) :
  Forall2 P l k -> x ∈ l -> exists y, y ∈ k /\ P x y.
Proof.
  intros HF (i & Hi)%list_elem_of_lookup.
  destruct (Forall2_lookup_l _ _ _ _ _ HF Hi) as (y & Hy & HP).
  exists y. split; [|exact HP]. apply list_elem_of_lookup. eauto.
Qed.

Lemma flip_flip_image (b : bits) :
  length b = BITS_IN_PDQ -> computed_images (spec_FlipH b) !! 4 = Some b.
Proof.
  intros Hlen.
  destruct (images_undo b Hlen 4 4) as (img & Himg & Hback).
  - unfold undo_index. do 3 apply list_elem_of_further. apply list_elem_of_here.
  - injection Himg as <-. exact Hback.
Qed.

(** The state of the two-entry index when the rotation is another hash. *)
Lemma rotation_differs (threshold : Z) (h t : string) (b : bits) :
  (0 <= threshold)%Z ->
  hex_to_binary_str h = Ok b ->
  hex_to_binary_str t = Ok (spec_R90 b) ->
  Forall (fun img => (threshold < Z.of_nat (hamming img (spec_R90 b)))%Z)
    (computed_images (spec_FlipH b)) ->
  t <> h.
Proof.
  intros Hthr Hb Hbt Hfar ->. rewrite Hb in Hbt. injection Hbt as Heq.
  pose proof (flip_flip_image b (hex_to_binary_str_length _ _ Hb)) as H4.
  rewrite Forall_lookup in Hfar. specialize (Hfar 4 b H4). cbn beta in Hfar.
  rewrite <- Heq, hamming_refl in Hfar. lia.
Qed.

Lemma PDQIndex2_flip_query (threshold : Z) (h t tq : string) (a r : M)
    (b : bits) self :
  (0 <= threshold)%Z ->
  hex_to_binary_str h = Ok b ->
  t = binary_str_to_hex (spec_R90 b) ->
  tq = binary_str_to_hex (spec_FlipH b) ->
  Forall (fun img => (threshold < Z.of_nat (hamming img (spec_R90 b)))%Z)
    (computed_images (spec_FlipH b)) ->
  PDQIndex2.__init__ [(h, a); (t, r)] threshold = Ok self ->
  exists d, PDQIndex2.query self tq = Ok [PDQIndexMatch d a]
    /\ (0 <= d <= threshold)%Z.
Proof.
  intros Hthr Hb Ht Htq Hfar Hinit.
  assert (hex_to_binary_str t = Ok (spec_R90 b)) as Hbt
    by (subst t; apply hex_to_binary_str_of_hex, remap_length).
  assert (hex_to_binary_str tq = Ok (spec_FlipH b)) as Hbq
    by (subst tq; apply hex_to_binary_str_of_hex, remap_length).
  pose proof (hex_to_binary_str_length _ _ Hb) as Hlen.
  assert (PDQIndex2.invariant self) as Hinv.
  { rewrite (init_run _ _ _ Hinit). apply run_invariant, empty_invariant. }
  rewrite (PDQIndex2_init_two _ _ _ _ _ _ _ Hb Hbt) in Hinit.
  rewrite decide_False in Hinit by (by eapply rotation_differs).
  apply Ok_inj in Hinit.
  destruct (PDQIndex2_query_Ok self tq) as [ms Hq];
    [by eexists | by apply invariant_ids_in_range|].
  rewrite Hq.
  destruct (PDQIndex2_query_inv _ _ _ Hq) as (ts & per & Hts & Hper & ->).
  clear Hq Hinv.
  destruct (transformed_images _ _ Hbq) as (ts' & Hts' & _ & Himgs).
  rewrite Hts in Hts'. apply Ok_inj in Hts'. subst ts'. clear Hts.
  subst self. proj_simpl.
  set (index := [b; spec_R90 b]) in *.
  assert (forall id d, (id, d) ∈ concat per ->
            id = 0 /\ (0 <= d <= threshold)%Z) as Hall.
  { intros id d (r' & Hin & Hr')%elem_of_concat.
    destruct (Forall2_elem_of_r _ _ _ _ Hper Hr') as (t' & Ht' & Hsearch).
    destruct (Forall2_elem_of_l _ _ _ _ Himgs Ht') as (img & Himg & Hb').
    rewrite (search_single _ _ _ _ Hb') in Hsearch. injection Hsearch as <-.
    apply elem_of_range_hits in Hin as (v & Hv & -> & Hd).
    split; [|lia]. rewrite Forall_forall in Hfar. specialize (Hfar _ Himg).
    subst index. destruct id as [|[|id]]; [done| |done].
    injection Hv as <-. cbn beta in Hfar. lia. }
  pose proof (flip_flip_image b Hlen) as H4.
  destruct (Forall2_lookup_r _ _ _ _ _ Himgs H4) as (t4 & Ht4 & Hb4).
  destruct (Forall2_lookup_l _ _ _ _ _ Hper Ht4) as (r4 & Hr4 & Hsearch4).
  rewrite (search_single _ _ _ _ Hb4) in Hsearch4. injection Hsearch4 as <-.
  destruct (only_id_hits 0 (first_hits ∅ (concat per))) as [d Hd].
  - apply first_hits_NoDup.
  - intros id ([id' d] & -> & Hin%first_hits_subset)%list_elem_of_fmap.
    by apply Hall in Hin as [? _].
  - apply first_hits_complete; [|apply not_elem_of_empty].
    apply list_elem_of_fmap. exists (0, 0%Z). split; [done|].
    apply elem_of_concat. eexists. split; [|apply list_elem_of_lookup; eauto].
    apply elem_of_range_hits. exists b. split; [reflexivity|].
    rewrite hamming_refl. split; [reflexivity | lia].
  - exists d. rewrite Hd. split; [reflexivity|].
    assert ((0, d) ∈ first_hits ∅ (concat per)) as Hin
      by (rewrite Hd; apply list_elem_of_here).
    apply first_hits_subset in Hin. by apply Hall in Hin as [_ ?].
Qed.

Lemma PDQIndex_flip_query (c : PDQIndex.cls) (h t tq : string) (a r : M)
    (b : bits) self :
  hex_to_binary_str h = Ok b ->
  t = binary_str_to_hex (spec_R90 b) ->
  tq = binary_str_to_hex (spec_FlipH b) ->
  Forall (fun img => (PDQIndex.get_match_threshold c
                      < Z.of_nat (hamming img (spec_R90 b)))%Z)
    (computed_images (spec_FlipH b)) ->
  PDQIndex.__init__ c [(h, a); (t, r)] = Ok self ->
  exists d, PDQIndex.query self tq = Ok [PDQIndexMatch d a]
    /\ (0 <= d <= PDQIndex.get_match_threshold c)%Z.
Proof.
  intros Hb Ht Htq Hfar Hinit.
  assert (hex_to_binary_str t = Ok (spec_R90 b)) as Hbt
    by (subst t; apply hex_to_binary_str_of_hex, remap_length).
  assert (hex_to_binary_str tq = Ok (spec_FlipH b)) as Hbq
    by (subst tq; apply hex_to_binary_str_of_hex, remap_length).
  pose proof (hex_to_binary_str_length _ _ Hb) as Hlen.
  assert (0 <= PDQIndex.get_match_threshold c)%Z as Hthr
    by (destruct c; cbn; lia).
  rewrite (PDQIndex_init_two _ _ _ _ _ _ _ Hb Hbt) in Hinit.
  apply Ok_inj in Hinit. subst self.
  set (self := PDQIndex.Build c _ _).
  assert (PDQIndex.ids_in_range self) as Hrange.
  { intros id v Hin. subst self. proj_simpl. cbn [length].
    apply elem_of_cons in Hin as [[= -> _] | Hin]; [lia|].
    apply list_elem_of_singleton in Hin as [= -> _]. lia. }
  destruct (PDQIndex_query_Ok self tq) as [ms Hq]; [by eexists | done|].
  rewrite Hq.
  destruct (PDQIndex_query_hits _ _ _ Hrange Hq) as (ts & Hts & _ & ->).
  clear Hq Hrange.
  destruct (transformed_images _ _ Hbq) as (ts' & Hts' & _ & Himgs).
  rewrite transformed_hashes_eq in Hts.
  rewrite Hts in Hts'. apply Ok_inj in Hts'. subst ts'. clear Hts.
  subst self. proj_simpl.
  set (thr := PDQIndex.get_match_threshold c) in *.
  set (index := [(0, b); (1, spec_R90 b)]).
  set (all := hit_key <$> concat _).
  assert (forall id d, (id, d) ∈ all -> id = 0 /\ (0 <= d <= thr)%Z) as Hall.
  { intros id d ([[id' v] d'] & [= -> ->]
                 & (r' & Hin & Hr')%elem_of_concat)%list_elem_of_fmap.
    apply list_elem_of_fmap in Hr' as (t' & -> & Ht').
    destruct (Forall2_elem_of_l _ _ _ _ Himgs Ht') as (img & Himg & Hb').
    rewrite (hash_bits_of _ _ Hb') in Hin.
    apply elem_of_hits_of in Hin as (Hin & -> & Hd). split; [|lia].
    rewrite Forall_forall in Hfar. specialize (Hfar _ Himg). cbn beta in Hfar.
    subst index. apply elem_of_cons in Hin as [[= -> _] | Hin]; [done|].
    apply list_elem_of_singleton in Hin as [= -> ->]. lia. }
  pose proof (flip_flip_image b Hlen) as H4.
  destruct (Forall2_lookup_r _ _ _ _ _ Himgs H4) as (t4 & Ht4 & Hb4).
  destruct (only_id_hits 0 (first_hits ∅ all)) as [d Hd].
  - apply first_hits_NoDup.
  - intros id ([id' d] & -> & Hin%first_hits_subset)%list_elem_of_fmap.
    by apply Hall in Hin as [? _].
  - apply first_hits_complete; [|apply not_elem_of_empty].
    apply list_elem_of_fmap. exists (0, 0%Z). split; [done|].
    subst all. apply list_elem_of_fmap. exists (0, b, 0%Z).
    split; [reflexivity|]. apply elem_of_concat. eexists. split.
    + apply elem_of_hits_of. split; [|by rewrite hamming_refl].
      subst index. apply list_elem_of_here.
    + apply list_elem_of_fmap. exists t4.
      split; [by rewrite (hash_bits_of _ _ Hb4)|].
      apply list_elem_of_lookup. eauto.
  - exists d. rewrite Hd. split; [reflexivity|].
    assert ((0, d) ∈ first_hits ∅ all) as Hin
      by (rewrite Hd; apply list_elem_of_here).
    apply first_hits_subset in Hin. by apply Hall in Hin as [_ ?].
Qed.

End Flipped_query.

(** X17: the second query of [test_query_with_multiple_matches], with the
    horizontally flipped hash, does not find the rotated entry in general.
    For every valid hash [h] whose rotation by 90 degrees is farther than the
    match threshold from each of the eight hashes that
    [_get_transformed_hashes] computes for the flipped [h]: on the index
    constructed from [(h, a)] and [(manually_rotate_90(h), r)], the query
    with [manually_flip_horizontal(h)] returns one match only, for [a], in
    both index classes ([PDQIndex2] with the default threshold), although
    the stored rotation is the flip followed by the rotation by 90 degrees
    of the query. *)
Theorem flipped_query_misses_rotated {M : Type} (c : PDQIndex.cls)
    (h : string) (b : bits) (a r : M) :
  hex_to_binary_str h = Ok b ->
  Forall (fun img => (PDQIndex.get_match_threshold c
                      < Z.of_nat (hamming img (spec_R90 b)))%Z)
    (computed_images (spec_FlipH b)) ->
  exists t90 tflip self2 self1 d2 d1,
    test_pdq_transformations.manually_rotate_90 h = Ok t90
    /\ test_pdq_transformations.manually_flip_horizontal h = Ok tflip
    /\ PDQIndex2.__init__ [(h, a); (t90, r)] PDQ_CONFIDENT_MATCH_THRESHOLD
       = Ok self2
    /\ PDQIndex.__init__ c [(h, a); (t90, r)] = Ok self1
    /\ PDQIndex2.query self2 tflip = Ok [PDQIndexMatch d2 a]
    /\ PDQIndex.query self1 tflip = Ok [PDQIndexMatch d1 a]
    /\ hex_to_binary_str t90 = Ok (spec_FlipH_R90 (spec_FlipH b)).
Proof.
  intros Hb Hfar.
  set (t90 := binary_str_to_hex (spec_R90 b)).
  set (tflip := binary_str_to_hex (spec_FlipH b)).
  assert (hex_to_binary_str t90 = Ok (spec_R90 b)) as Hbt
    by apply hex_to_binary_str_of_hex, remap_length.
  assert (0 <= PDQ_CONFIDENT_MATCH_THRESHOLD)%Z as Hthr by done.
  assert (Forall (fun img => (PDQ_CONFIDENT_MATCH_THRESHOLD
                              < Z.of_nat (hamming img (spec_R90 b)))%Z)
            (computed_images (spec_FlipH b))) as Hfar2.
  { eapply Forall_impl; [exact Hfar|]. intros img. cbn beta.
    unfold PDQ_CONFIDENT_MATCH_THRESHOLD. destruct c; cbn; lia. }
  pose proof (PDQIndex2_init_two PDQ_CONFIDENT_MATCH_THRESHOLD h t90 a r _ _
                Hb Hbt) as Hinit2.
  pose proof (PDQIndex_init_two c h t90 a r _ _ Hb Hbt) as Hinit1.
  destruct (PDQIndex2_flip_query _ h t90 tflip a r b _ Hthr Hb eq_refl eq_refl
              Hfar2 Hinit2) as (d2 & Hq2 & _).
  destruct (PDQIndex_flip_query c h t90 tflip a r b _ Hb eq_refl eq_refl
              Hfar Hinit1) as (d1 & Hq1 & _).
  exists t90, tflip. eexists _, _, d2, d1.
  split; [exact (manually_rotate_90_image _ _ Hb)|].
  split; [exact (manually_flip_horizontal_image _ _ Hb)|].
  split; [exact Hinit2|]. split; [exact Hinit1|].
  split; [exact Hq2|]. split; [exact Hq1|].
  pose proof (flip_flip_image b (hex_to_binary_str_length _ _ Hb)) as H4.
  assert (spec_FlipH (spec_FlipH b) = b) as Hff
    by (apply (inj Some); exact H4).
  unfold spec_FlipH_R90. rewrite Hff. exact Hbt.
Qed.

Lemma flipped_query_misses_rotated_witness :
  hex_to_binary_str "f0f0f0f0f0f0f0f0f0f0f0f0f0f0f0f000000000000000000000000000000000"
  = Ok (concat (repeat (concat (repeat
                  ([true; true; true; true] ++ [false; false; false; false])
                  2)) 8) ++ repeat false 128)
  /\ Forall (fun img =>
       (PDQIndex.get_match_threshold PDQIndex.PDQFlatIndex
        < Z.of_nat (hamming img
            (spec_R90 (concat (repeat (concat (repeat
                  ([true; true; true; true] ++ [false; false; false; false])
                  2)) 8) ++ repeat false 128))))%Z)
       (computed_images
          (spec_FlipH (concat (repeat (concat (repeat
                  ([true; true; true; true] ++ [false; false; false; false])
                  2)) 8) ++ repeat false 128)))
  /\ exists t90 tflip self2 self1 d2 d1,
       test_pdq_transformations.manually_rotate_90
         "f0f0f0f0f0f0f0f0f0f0f0f0f0f0f0f000000000000000000000000000000000"
       = Ok t90
       /\ test_pdq_transformations.manually_flip_horizontal
            "f0f0f0f0f0f0f0f0f0f0f0f0f0f0f0f000000000000000000000000000000000"
          = Ok tflip
       /\ PDQIndex2.__init__
            [("f0f0f0f0f0f0f0f0f0f0f0f0f0f0f0f000000000000000000000000000000000",
              1); (t90, 2)] PDQ_CONFIDENT_MATCH_THRESHOLD = Ok self2
       /\ PDQIndex.__init__ PDQIndex.PDQFlatIndex
            [("f0f0f0f0f0f0f0f0f0f0f0f0f0f0f0f000000000000000000000000000000000",
              1); (t90, 2)] = Ok self1
       /\ PDQIndex2.query self2 tflip = Ok [PDQIndexMatch d2 1]
       /\ PDQIndex.query self1 tflip = Ok [PDQIndexMatch d1 1]
       /\ hex_to_binary_str t90
          = Ok (spec_FlipH_R90
                  (spec_FlipH (concat (repeat (concat (repeat
                  ([true; true; true; true] ++ [false; false; false; false])
                  2)) 8) ++ repeat false 128))).
Proof.
  assert (hex_to_binary_str
            "f0f0f0f0f0f0f0f0f0f0f0f0f0f0f0f000000000000000000000000000000000"
          = Ok (concat (repeat (concat (repeat
                  ([true; true; true; true] ++ [false; false; false; false])
                  2)) 8) ++ repeat false 128)) as Hb
    by (vm_compute; reflexivity).
  assert (Forall (fun img =>
       (PDQIndex.get_match_threshold PDQIndex.PDQFlatIndex
        < Z.of_nat (hamming img
            (spec_R90 (concat (repeat (concat (repeat
                  ([true; true; true; true] ++ [false; false; false; false])
                  2)) 8) ++ repeat false 128))))%Z)
       (computed_images
          (spec_FlipH (concat (repeat (concat (repeat
                  ([true; true; true; true] ++ [false; false; false; false])
                  2)) 8) ++ repeat false 128)))) as Hfar
    by (repeat constructor; vm_compute; reflexivity).
  split; [exact Hb|]. split; [exact Hfar|].
  exact (flipped_query_misses_rotated PDQIndex.PDQFlatIndex _ _ 1 2 Hb Hfar).
Defined.
